(** * Replstash examples: [DataProcessor] and [Solver]

    A shallow embedding of [src/examples/data_processor.py] and
    [src/examples/solve.py], and the properties their specification states
    about them.

    Python lists are Rocq lists, a [dict] is a [gmap], a call that may raise
    returns an [outcome], and a method of an object with mutable fields is a
    function from the object's state to the new state and the outcome. *)

From Stdlib Require Import QArith Ascii String Znumtheory SpecFloat.
From stdpp Require Import base list gmap strings sorting pretty.
From Equations Require Import Equations.
Close Scope Q_scope.

(** ** Outcomes of a call: a returned value or a raised exception *)

Inductive outcome (E A : Type) : Type :=
  | Return (a : A)
  | Raise (e : E).
Arguments Return {E A} a.
Arguments Raise {E A} e.

(** The exceptions Python's arithmetic raises: [OverflowError] when an
    [int] is too large for the [float] an operation needs, and
    [ZeroDivisionError]. *)
Inductive arithmetic_error : Type :=
  | OverflowError
  | ZeroDivisionError.

(** [enumerate(l, start)] *)
Fixpoint enumerate {A : Type} (l : list A) (start : nat) : list (nat * A) :=
  match l with
  | [] => []
  | x :: l' => (start, x) :: enumerate l' (S start)
  end.

(** [range(lo, hi)] over natural numbers: empty when [hi <= lo]. *)
Definition range (lo hi : nat) : list nat := seq lo (hi - lo).

(** * data_processor.py *)

Module DataProcessor.

(** The arithmetic of Python's [int] and [float] values that the class uses:
    the literal [0], [+], true division [/] and the comparison [>].  The
    methods are generic in it; [bool] is a subclass of [int] and is covered by
    the same interface.  [+] and [/] may raise ([10**309 / 1] and
    [10**309 + 1.0] raise [OverflowError]); [>] never does. *)
Class Numeric (num : Type) := {
  of_int : Z → num;
  add : num → num → outcome arithmetic_error num;
  truediv : num → num → outcome arithmetic_error num;
  gt : num → num → bool;
}.

Section Processor.
Context {num : Type} `{!Numeric num}.

(** The objects a caller may put in the list handed to [add_numbers]:
    instances of [int] or [float] ([PNum]), and objects of other types. *)
Inductive pyval : Type :=
  | PNum (x : num)
  | PStr (s : string)
  | PNone.

(** [isinstance(v, (int, float))] *)
Definition isinstance_int_float (v : pyval) : bool :=
  match v with
  | PNum _ => true
  | _ => false
  end.

(** [ValueError(f"Invalid number: {num}")] carries the rejected object;
    [IndexError] is what [self.data[i]] raises out of range; the exceptions
    of the arithmetic are instances of [ArithmeticError]. *)
Inductive error : Type :=
  | ValueError (num : pyval)
  | IndexError
  | ArithmeticError (e : arithmetic_error).

(** [self]: the only field is [data], created empty by [__init__]. *)
Record processor : Type := { data : list num }.

Definition __init__ : processor := {| data := [] |}.

(** A method runs on [self], may update it, and returns or raises. *)
Definition method (A : Type) : Type := processor → processor * outcome error A.

#[export] Instance method_ret : MRet method :=
  λ A a self, (self, Return a).

#[export] Instance method_bind : MBind method :=
  λ A B k m self,
    match m self with
    | (self', Return a) => k a self'
    | (self', Raise e) => (self', Raise e)
    end.

Definition raise {A} (e : error) : method A := λ self, (self, Raise e).

(** An arithmetic operation inside a method: its value, or its exception
    raised from the method. *)
Definition arith {A} (result : outcome arithmetic_error A) : method A :=
  λ self,
    match result with
    | Return a => (self, Return a)
    | Raise e => (self, Raise (ArithmeticError e))
    end.

(** [self.data] *)
Definition self_data : method (list num) := λ self, (self, Return (data self)).

(** [len(self.data)] *)
Definition len_data : method nat := d ← self_data; mret (length d).

(** [self.data[i]] for an index [i >= 0] *)
Definition data_at (i : nat) : method num :=
  d ← self_data;
  match d !! i with
  | Some x => mret x
  | None => raise IndexError
  end.

(** [self.data.append(x)] *)
Definition data_append (x : num) : method unit :=
  λ self, ({| data := data self ++ [x] |}, Return tt).

(** [for x in xs: body(x)] *)
Fixpoint for_in {B} (xs : list B) (body : B → method unit) : method unit :=
  match xs with
  | [] => mret tt
  | x :: xs' => _ ← body x; for_in xs' body
  end.

(** A [for] loop that updates a local variable [acc]. *)
Fixpoint for_acc {B S} (xs : list B) (acc : S) (body : B → S → method S) : method S :=
  match xs with
  | [] => mret acc
  | x :: xs' => acc' ← body x acc; for_acc xs' acc' body
  end.

(** [add_numbers(self, numbers)] *)
Definition add_numbers (numbers : list pyval) : method unit :=
  for_in numbers (λ num,
    match num with
    | PNum x => data_append x
    | _ => raise (ValueError num)
    end).

(** [running_average(self)] *)
Definition running_average : method (list num) :=
  d ← self_data;
  match d with
  | [] => mret []
  | _ =>
    d ← self_data;
    '(_, result) ← for_acc (enumerate d 1) (of_int 0, [])
      (λ '(i, num) '(total, result),
         total ← arith (add total num);
         average ← arith (truediv total (of_int (Z.of_nat i)));
         mret (total, result ++ [average]));
    mret result
  end.

(** [threshold is None or self.data[i] > threshold] *)
Definition above (threshold : option num) (i : nat) : method bool :=
  match threshold with
  | None => mret true
  | Some t => x ← data_at i; mret (gt x t)
  end.

(** The body of the loop of [find_peaks], for the index [i] and the local
    list [peaks]. *)
Definition peak_step (threshold : option num) (i : nat) (peaks : list (nat * num))
    : method (list (nat * num)) :=
  x ← data_at i;
  l ← data_at (i - 1);
  if gt x l then
    x ← data_at i;
    r ← data_at (i + 1);
    if gt x r then
      ok ← above threshold i;
      if (ok : bool) then
        x ← data_at i;
        mret (peaks ++ [(i, x)])
      else mret peaks
    else mret peaks
  else mret peaks.

(** [find_peaks(self, threshold=None)] *)
Definition find_peaks (threshold : option num) : method (list (nat * num)) :=
  n ← len_data;
  if n <? 3 then mret []
  else
    n ← len_data;
    for_acc (range 1 (n - 1)) [] (peak_step threshold).

(** *** Vocabulary of the specification *)

(** The elements of [S] added from the left to [total]; the first addition
    that raises ends the sum. *)
Fixpoint sum_from (total : num) (S : list num) : outcome arithmetic_error num :=
  match S with
  | [] => Return total
  | x :: S' =>
    match add total x with
    | Return total' => sum_from total' S'
    | Raise e => Raise e
    end
  end.

(** [sum(S)]: the elements added from the left, starting from [0]. *)
Definition py_sum (S : list num) : outcome arithmetic_error num :=
  sum_from (of_int 0) S.

(** [sum(S[0..i]) / (i+1)]: the mean of the first [i+1] elements, or the
    exception that the sum or the division raises. *)
Definition prefix_mean (S : list num) (i : nat) : outcome arithmetic_error num :=
  match py_sum (take (i + 1) S) with
  | Return total => truediv total (of_int (Z.of_nat (i + 1)))
  | Raise e => Raise e
  end.

(** The means of the prefixes of [S], by growing length, up to the first
    one that raises. *)
Fixpoint prefix_means_from (i : nat) (xs : list num) (n : nat)
    : outcome arithmetic_error (list num) :=
  match n with
  | 0 => Return []
  | S n' =>
    match prefix_mean xs i with
    | Return average =>
      match prefix_means_from (S i) xs n' with
      | Return averages => Return (average :: averages)
      | Raise e => Raise e
      end
    | Raise e => Raise e
    end
  end.

Definition prefix_means (S : list num) : outcome arithmetic_error (list num) :=
  prefix_means_from 0 S (length S).

(** A call whose exception, if any, is caught by the caller: what the call
    did is observed, and the caller goes on. *)
Definition attempt {A} (m : method A) : method (outcome error A) :=
  λ self, let '(self', result) := m self in (self', Return result).

(** The threshold condition: none supplied, or the value is strictly
    greater. *)
Definition exceeds (threshold : option num) (v : num) : bool :=
  match threshold with
  | None => true
  | Some t => gt v t
  end.

(** [(i, v)] is a peak of [S]: [i] is an interior index, [v] is the element
    there, strictly greater than both neighbours and than the threshold. *)
Definition peak_at (S : list num) (threshold : option num) (i : nat) (v : num) : Prop :=
  1 ≤ i ∧ i + 1 < length S ∧ S !! i = Some v ∧
  (∃ l r, S !! (i - 1) = Some l ∧ S !! (i + 1) = Some r ∧
          gt v l = true ∧ gt v r = true) ∧
  exceeds threshold v = true.

(** The same as a test on one index, and the peaks of [S] listed by
    ascending interior index. *)
Definition peak_value (S : list num) (threshold : option num) (i : nat) : option (nat * num) :=
  match S !! i, S !! (i - 1), S !! (i + 1) with
  | Some v, Some l, Some r =>
      if gt v l && gt v r && exceeds threshold v then Some (i, v) else None
  | _, _, _ => None
  end.

Definition peaks_of (S : list num) (threshold : option num) : list (nat * num) :=
  omap (peak_value S threshold) (range 1 (length S - 1)).

End Processor.

End DataProcessor.

(** Exact rational arithmetic as an instance of the interface: every sum
    and every quotient is exact, and nothing overflows. *)
#[export] Instance Q_numeric : DataProcessor.Numeric Q := {|
  DataProcessor.of_int := inject_Z;
  DataProcessor.add := λ x y, Return (Qplus x y);
  DataProcessor.truediv := λ x y, Return (Qdiv x y);
  DataProcessor.gt := λ x y, negb (Qle_bool x y);
|}.

(** Python's own numbers: an [int] is an integer of any size, a [float] is
    an IEEE 754 binary64 value ([True] and [False] are the integers 1 and 0
    for the arithmetic). *)
Inductive number : Type :=
  | Int (z : Z)
  | Float (f : spec_float).

(** The conversion of an [int] operand to [float]: rounded to nearest, ties
    to even, and [OverflowError] when the result is out of range. *)
Definition float_of_int (z : Z) : outcome arithmetic_error spec_float :=
  match binary_normalize 53 1024 z 0 false with
  | S754_infinity _ => Raise OverflowError
  | f => Return f
  end.

Definition float_is_zero (f : spec_float) : bool :=
  match f with
  | S754_zero _ => true
  | _ => false
  end.

(** [x / y] on floats: [ZeroDivisionError] on a zero divisor. *)
Definition float_truediv (x y : spec_float) : outcome arithmetic_error number :=
  if float_is_zero y then Raise ZeroDivisionError
  else Return (Float (SFdiv 53 1024 x y)).

(** An integer as an unrounded binary number with exponent 0. *)
Definition unrounded (z : Z) : spec_float :=
  match z with
  | Z0 => S754_zero false
  | Zpos m => S754_finite false m 0
  | Zneg m => S754_finite true m 0
  end.

(** [a / b] on two [int]: the quotient rounded once to the nearest float,
    [ZeroDivisionError] when [b == 0] and [OverflowError] when the quotient
    is out of range. *)
Definition int_truediv (a b : Z) : outcome arithmetic_error number :=
  if (b =? 0)%Z then Raise ZeroDivisionError
  else
    match SFdiv 53 1024 (unrounded a) (unrounded b) with
    | S754_infinity _ => Raise OverflowError
    | f => Return (Float f)
    end.

(** The exact comparison of an [int] with a [float] ([None] for [nan]). *)
Definition int_cmp_float (a : Z) (f : spec_float) : option comparison :=
  match f with
  | S754_nan => None
  | S754_infinity s => Some (if s then Gt else Lt)
  | S754_zero _ => Some (a ?= 0)%Z
  | S754_finite s m e =>
    let v := cond_Zopp s (Zpos m) in
    Some match e with
         | Zneg p => (a * 2 ^ Zpos p ?= v)%Z
         | _ => (a ?= v * 2 ^ e)%Z
         end
  end.

Definition number_add (x y : number) : outcome arithmetic_error number :=
  match x, y with
  | Int a, Int b => Return (Int (a + b))
  | Int a, Float g =>
    match float_of_int a with
    | Return f => Return (Float (SFadd 53 1024 f g))
    | Raise e => Raise e
    end
  | Float f, Int b =>
    match float_of_int b with
    | Return g => Return (Float (SFadd 53 1024 f g))
    | Raise e => Raise e
    end
  | Float f, Float g => Return (Float (SFadd 53 1024 f g))
  end.

Definition number_truediv (x y : number) : outcome arithmetic_error number :=
  match x, y with
  | Int a, Int b => int_truediv a b
  | Int a, Float g =>
    match float_of_int a with
    | Return f => float_truediv f g
    | Raise e => Raise e
    end
  | Float f, Int b =>
    match float_of_int b with
    | Return g => float_truediv f g
    | Raise e => Raise e
    end
  | Float f, Float g => float_truediv f g
  end.

Definition number_gt (x y : number) : bool :=
  match x, y with
  | Int a, Int b => (b <? a)%Z
  | Int a, Float g =>
    match int_cmp_float a g with
    | Some Gt => true
    | _ => false
    end
  | Float f, Int b =>
    match int_cmp_float b f with
    | Some Lt => true
    | _ => false
    end
  | Float f, Float g => SFltb g f
  end.

#[export] Instance python_numeric : DataProcessor.Numeric number := {|
  DataProcessor.of_int := Int;
  DataProcessor.add := number_add;
  DataProcessor.truediv := number_truediv;
  DataProcessor.gt := number_gt;
|}.

(** * solve.py *)

Module Solver.

Section Text.
(** Python strings are sequences of Unicode code points.  The character
    tables behind [str.isalnum] and [str.lower] are the interpreter's, not
    the repository's: the code is generic in them.  [lower] of one
    character is a string (it may have more than one character). *)
Context {char : Type} `{Countable char}.
Variable isalnum : char → bool.
Variable lower : char → list char.

(** [''.join(char.lower() for char in text if char.isalnum())] *)
Definition cleaned (text : list char) : list char :=
  concat (map lower (List.filter isalnum text)).

(** [is_palindrome(self, text)] *)
Definition is_palindrome (text : list char) : bool :=
  let cleaned := cleaned text in
  bool_decide (cleaned = reverse cleaned).

(** [for char in s: freq[char] = freq.get(char, 0) + 1], from [freq = {}] *)
Definition count_chars (s : list char) : gmap char Z :=
  fold_left (λ freq char, <[char := (default 0 (freq !! char) + 1)%Z]> freq) s ∅.

(** [not s]: a string is falsy when it is empty *)
Definition falsy (s : list char) : bool :=
  match s with
  | [] => true
  | _ => false
  end.

(** [are_anagrams(self, str1, str2)] *)
Definition are_anagrams (str1 str2 : list char) : bool :=
  let s1 := cleaned str1 in
  let s2 := cleaned str2 in
  if falsy s1 || falsy s2 then false
  else
    let freq1 := count_chars s1 in
    let freq2 := count_chars s2 in
    bool_decide (freq1 = freq2).

(** *** Vocabulary of the specification *)

(** The normalized string: the alphanumeric characters of [text], in
    order, each replaced by its lower case. *)
Fixpoint normalize (text : list char) : list char :=
  match text with
  | [] => []
  | c :: text' =>
      if isalnum c then lower c ++ normalize text' else normalize text'
  end.

(** The number of occurrences of [c] in [s]. *)
Definition occurrences (c : char) (s : list char) : Z :=
  Z.of_nat (length (filter (c =.) s)).

(** The character-frequency map of [s]: its keys are the characters of
    [s], each mapped to its number of occurrences. *)
Definition frequency_map (s : list char) : gmap char Z :=
  list_to_map ((λ c, (c, occurrences c s)) <$> s).
End Text.

(** The argument of [find_factors] is any object: an [int], a [bool] (which
    is an instance of [int], with [True == 1] and [False == 0]), or an object
    of another type, here a [float] of the given value, a [str] or [None]. *)
Inductive pyobj : Type :=
  | PyInt (n : Z)
  | PyBool (b : bool)
  | PyFloat (x : Q)
  | PyStr (s : string)
  | PyNone.

Inductive error : Type :=
  | ValueError (msg : string).

(** [isinstance(n, int)], with the integer value of [n] when it holds *)
Definition as_int (n : pyobj) : option Z :=
  match n with
  | PyInt z => Some z
  | PyBool b => Some (if b then 1 else 0)%Z
  | _ => None
  end.

(** [range(lo, hi)] over the integers *)
Definition rangeZ (lo hi : Z) : list Z := seqZ lo (hi - lo).

(** [find_factors(self, n)] *)
Definition find_factors (n : pyobj) : outcome error (list Z) :=
  match as_int n with
  | None => Raise (ValueError "Input must be an integer")
  | Some n =>
    if (n <=? 0)%Z then Raise (ValueError "Input must be positive")
    else
      Return (fold_left
                (λ factors i, if (n `mod` i =? 0)%Z then factors ++ [i] else factors)
                (rangeZ 1 (n + 1)) [])
  end.

Section Permutations.
Context {A : Type}.

(** [items[i]] for an index within the list *)
Fixpoint getitem (items : list A) (i : nat) : i < length items → A :=
  match items, i with
  | [], _ => λ Hi, False_rect A (Nat.nlt_0_r _ Hi)
  | x :: _, 0 => λ _, x
  | _ :: items', S i' => λ Hi, getitem items' i' (proj2 (Nat.succ_lt_mono _ _) Hi)
  end.

(** [for i in range(n): body(i)], updating a local variable; the body
    learns that [i] comes from the range. *)
Fixpoint for_each_in {B S : Type} (xs : list B)
    : (∀ x, In x xs → S → S) → S → S :=
  match xs with
  | [] => λ _ acc, acc
  | x :: xs' => λ body acc,
      for_each_in xs' (λ y Hy, body y (or_intror Hy)) (body x (or_introl eq_refl) acc)
  end.

Lemma range_lt (n i : nat) : In i (range 0 n) → i < n.
Proof. unfold range. rewrite in_seq. lia. Qed.

(** [items[:i] + items[i+1:]] *)
Definition without (items : list A) (i : nat) : list A :=
  take i items ++ drop (S i) items.

Lemma length_without (items : list A) (i : nat) :
  i < length items → length (without items i) < length items.
Proof.
  intros Hi. unfold without.
  rewrite length_app, length_take, length_drop. lia.
Qed.

(** [get_permutations(self, items)] *)
Equations? get_permutations (items : list A) : list (list A)
    by wf (length items) lt :=
  get_permutations items with le_lt_dec (length items) 1 => {
    | left _ => [items]
    | right _ =>
      for_each_in (range 0 (length items)) (λ i Hi perms,
        let current := getitem items i (range_lt _ _ Hi) in
        let remaining := without items i in
        fold_left (λ perms p, perms ++ [current :: p])
                  (get_permutations remaining) perms) [] }.
Proof. apply length_without, range_lt, Hi. Qed.
End Permutations.

End Solver.

(** The character tables restricted to ASCII, where they are: digits and
    letters are alphanumeric, and [lower] moves [A-Z] to [a-z].  Characters
    above 127 are outside this table. *)
Definition ascii_isalnum (c : ascii) : bool :=
  let n := nat_of_ascii c in
  (48 <=? n) && (n <=? 57) || (65 <=? n) && (n <=? 90) || (97 <=? n) && (n <=? 122).

Definition ascii_lower (c : ascii) : list ascii :=
  let n := nat_of_ascii c in
  if (65 <=? n) && (n <=? 90) then [ascii_of_nat (n + 32)] else [c].

Definition str (s : string) : list ascii := list_ascii_of_string s.


(** * conv.py *)

Module Conversions.
Import DataProcessor.

(** What the class needs of Python's numbers beyond [Numeric]: [*], [-],
    the comparison [<], the [float] written as a decimal literal, and the
    text an f-string puts for a number.  [*] and [-] may raise as [+] and
    [/] do. *)
Class Arithmetic (num : Type) `{!Numeric num} := {
  mul : num → num → outcome arithmetic_error num;
  sub : num → num → outcome arithmetic_error num;
  lt : num → num → bool;
  of_decimal : Q → num;
  format : num → string;
}.

Section Conversions.
Context {num : Type} `{!Numeric num, !Arithmetic num}.

Inductive error : Type :=
  | ValueError (msg : string)
  | ArithmeticError (e : arithmetic_error).

(** [self]: the only field is [conversion_history], created empty. *)
Record conversions : Type := { conversion_history : list string }.

Definition __init__ : conversions := {| conversion_history := [] |}.

Definition method (A : Type) : Type :=
  conversions → conversions * outcome error A.

#[export] Instance method_ret : MRet method :=
  λ A a self, (self, Return a).

#[export] Instance method_bind : MBind method :=
  λ A B k m self,
    match m self with
    | (self', Return a) => k a self'
    | (self', Raise e) => (self', Raise e)
    end.

Definition raise {A} (e : error) : method A := λ self, (self, Raise e).

(** An arithmetic operation inside a method: its value, or its exception
    raised from the method. *)
Definition arith {A} (result : outcome arithmetic_error A) : method A :=
  λ self,
    match result with
    | Return a => (self, Return a)
    | Raise e => (self, Raise (ArithmeticError e))
    end.

(** [self.conversion_history.append(line)] *)
Definition history_append (line : string) : method unit :=
  λ self,
    ({| conversion_history := conversion_history self ++ [line] |}, Return tt).

(** [celsius_to_fahrenheit(self, celsius)] *)
Definition celsius_to_fahrenheit (celsius : pyval (num:=num)) : method num :=
  match celsius with
  | PNum celsius =>
    if lt celsius (of_decimal (-273.15)) then
      raise (ValueError "Temperature below absolute zero")
    else
      product ← arith (mul celsius (of_int 9));
      quotient ← arith (truediv product (of_int 5));
      fahrenheit ← arith (add quotient (of_int 32));
      _ ← history_append
            (format celsius +:+ "°C → " +:+ format fahrenheit +:+ "°F");
      mret fahrenheit
  | _ => raise (ValueError "Temperature must be a number")
  end.

(** [fahrenheit_to_celsius(self, fahrenheit)] *)
Definition fahrenheit_to_celsius (fahrenheit : pyval (num:=num)) : method num :=
  match fahrenheit with
  | PNum fahrenheit =>
    if lt fahrenheit (of_decimal (-459.67)) then
      raise (ValueError "Temperature below absolute zero")
    else
      difference ← arith (sub fahrenheit (of_int 32));
      product ← arith (mul difference (of_int 5));
      celsius ← arith (truediv product (of_int 9));
      _ ← history_append
            (format fahrenheit +:+ "°F → " +:+ format celsius +:+ "°C");
      mret celsius
  | _ => raise (ValueError "Temperature must be a number")
  end.

(** [kg_to_lb(self, kg)] *)
Definition kg_to_lb (kg : pyval (num:=num)) : method num :=
  match kg with
  | PNum kg =>
    if lt kg (of_int 0) then raise (ValueError "Weight cannot be negative")
    else
      pounds ← arith (mul kg (of_decimal 2.20462));
      _ ← history_append (format kg +:+ "kg → " +:+ format pounds +:+ "lb");
      mret pounds
  | _ => raise (ValueError "Weight must be a number")
  end.

(** A callable handed to [chain_convert]: it takes an object and returns
    one or raises, and it may be a bound method of [self]. *)
Definition conversion : Type := pyval (num:=num) → method (pyval (num:=num)).

(** A method of the class used as such a callable, e.g. [conv.kg_to_lb]. *)
Definition bound (m : pyval (num:=num) → method num) : conversion :=
  λ value, x ← m value; mret (PNum x).

(** [chain_convert(self, value, conversions)] *)
Fixpoint chain_convert (value : pyval (num:=num)) (conversions : list conversion)
    : method (pyval (num:=num)) :=
  match conversions with
  | [] => mret value
  | conversion :: conversions' =>
      result ← conversion value; chain_convert result conversions'
  end.

(** [get_history(self)] *)
Definition get_history : method (list string) :=
  λ self, (self, Return (conversion_history self)).

(** The three converting methods of the class, as callables. *)
Inductive converter : conversion → Prop :=
  | converter_c2f : converter (bound celsius_to_fahrenheit)
  | converter_f2c : converter (bound fahrenheit_to_celsius)
  | converter_kg2lb : converter (bound kg_to_lb).

End Conversions.

End Conversions.

(** Exact rational arithmetic for the conversions; a number is printed as a
    fraction. *)
#[export] Instance Q_arithmetic : Conversions.Arithmetic Q := {|
  Conversions.mul := λ x y, Return (Qmult x y);
  Conversions.sub := λ x y, Return (Qminus x y);
  Conversions.lt := λ x y, negb (Qle_bool y x);
  Conversions.of_decimal := λ q, q;
  Conversions.format := λ q, pretty (Qnum q) +:+ "/" +:+ pretty (Zpos (Qden q));
|}.

(** * hangman.py *)

Module Hangman.

Inductive error : Type :=
  | IndexError.

#[export] Instance outcome_ret : MRet (outcome error) := λ A a, Return a.

#[export] Instance outcome_bind : MBind (outcome error) :=
  λ A B k m,
    match m with
    | Return a => k a
    | Raise e => Raise e
    end.

Section Letters.
(** A word is a string of letters (any characters), ['_'] among them.  The random
    generator is used once: [randbelow n] is the number it draws below
    [n]. *)
Context {letter : Type} `{EqDecision letter}.
Variable underscore : letter.
Variable randbelow : nat → nat.

(** [random.choice(seq)]: [seq[randbelow(len(seq))]], and [IndexError] on
    an empty sequence. *)
Definition random_choice {B} (seq : list B) : outcome error B :=
  match seq with
  | [] => Raise IndexError
  | _ =>
    match seq !! randbelow (length seq) with
    | Some x => Return x
    | None => Raise IndexError
    end
  end.

(** [templist[num] = char] *)
Definition setitem (templist : list letter) (num : nat) (char : letter)
    : outcome error (list letter) :=
  if decide (num < length templist) then Return (<[num := char]> templist)
  else Raise IndexError.

(** A [for] loop that updates a local variable. *)
Fixpoint for_each {B S} (xs : list B) (acc : S) (body : B → S → outcome error S)
    : outcome error S :=
  match xs with
  | [] => mret acc
  | x :: xs' => acc' ← body x acc; for_each xs' acc' body
  end.

(** The first loop of [get_some_letters]: the distinct characters of
    [word]. *)
Definition distinct_letters (word : list letter) : list letter :=
  fold_left
    (λ letters char, if decide (char ∈ letters) then letters else letters ++ [char])
    word [].

(** [get_some_letters(word)] *)
Definition get_some_letters (word : list letter) : outcome error (list letter) :=
  let letters := distinct_letters word in
  let temp := replicate (length word) underscore in
  character ← random_choice letters;
  for_each (enumerate word 0) temp
    (λ '(num, char) temp,
       if decide (char = character) then
         let templist := temp in
         setitem templist num char
       else mret temp).

End Letters.

End Hangman.

(** * scissors.py *)

Module Scissors.

Definition choices : list string := ["rock"; "paper"; "scissors"].

(** The variables of the script, the lines printed so far, and the number
    of calls of [random.choice] made so far. *)
Record state : Type := {
  computer_1_score : Z;
  computer_2_score : Z;
  printed : list string;
  calls : nat;
}.

Section Game.
(** [pick k] is what the call number [k] of [random.choice(choices)]
    returns. *)
Variable pick : nat → string.

Definition print (line : string) (st : state) : state :=
  {| computer_1_score := computer_1_score st;
     computer_2_score := computer_2_score st;
     printed := printed st ++ [line];
     calls := calls st |}.

(** [computer_1_score += 1] and [computer_2_score += 1] *)
Definition computer_1_scores (st : state) : state :=
  {| computer_1_score := computer_1_score st + 1;
     computer_2_score := computer_2_score st;
     printed := printed st;
     calls := calls st |}.

Definition computer_2_scores (st : state) : state :=
  {| computer_1_score := computer_1_score st;
     computer_2_score := computer_2_score st + 1;
     printed := printed st;
     calls := calls st |}.

Definition two_calls (st : state) : state :=
  {| computer_1_score := computer_1_score st;
     computer_2_score := computer_2_score st;
     printed := printed st;
     calls := S (S (calls st)) |}.

(** The body of the [while] loop. *)
Definition play_round (st : state) : state :=
  let computer_1_choice := pick (calls st) in
  let computer_2_choice := pick (S (calls st)) in
  let st := two_calls st in
  let st :=
    if String.eqb computer_1_choice computer_2_choice then
      print "It's a tie!" st
    else if String.eqb computer_1_choice "rock" then
      if String.eqb computer_2_choice "scissors" then computer_1_scores st
      else computer_2_scores st
    else if String.eqb computer_1_choice "paper" then
      if String.eqb computer_2_choice "rock" then computer_1_scores st
      else computer_2_scores st
    else if String.eqb computer_1_choice "scissors" then
      if String.eqb computer_2_choice "paper" then computer_1_scores st
      else computer_2_scores st
    else st in
  print ("Computer 1: " +:+ pretty (computer_1_score st) +:+
         ", Computer 2: " +:+ pretty (computer_2_score st)) st.

(** [while num_rounds > 0: ...; num_rounds -= 1] *)
Fixpoint play_rounds (num_rounds : nat) (st : state) : state :=
  match num_rounds with
  | 0 => st
  | S num_rounds' => play_rounds num_rounds' (play_round st)
  end.

(** The lines after the loop. *)
Definition final_results (st : state) : state :=
  let st := print (String "010" "Final Scores:") st in
  let st := print ("Computer 1: " +:+ pretty (computer_1_score st)) st in
  let st := print ("Computer 2: " +:+ pretty (computer_2_score st)) st in
  if (computer_1_score st >? computer_2_score st)%Z then
    print "Computer 1 wins the game!" st
  else if (computer_1_score st <? computer_2_score st)%Z then
    print "Computer 2 wins the game!" st
  else print "The game is a tie!" st.

(** The script: both scores start at 0 and [num_rounds] at 5. *)
Definition script : state :=
  final_results
    (play_rounds 5
       {| computer_1_score := 0; computer_2_score := 0;
          printed := []; calls := 0 |}).

(** The number of the first [num_rounds] rounds, counted from call [k],
    in which the two choices differ. *)
Fixpoint decided_rounds (num_rounds k : nat) : Z :=
  match num_rounds with
  | 0 => 0
  | S num_rounds' =>
      ((if String.eqb (pick k) (pick (S k)) then 0 else 1) +
       decided_rounds num_rounds' (S (S k)))%Z
  end.

End Game.

(** The rule of the game: rock beats scissors, paper beats rock, scissors
    beat paper. *)
Definition beats (a b : string) : bool :=
  String.eqb a "rock" && String.eqb b "scissors" ||
  String.eqb a "paper" && String.eqb b "rock" ||
  String.eqb a "scissors" && String.eqb b "paper".

(** The two computers' choices exchanged in every round. *)
Definition exchanged (pick : nat → string) : nat → string :=
  λ k, if Nat.even k then pick (S k) else pick (pred k).

(** A generator that goes through the choices in turn. *)
Definition in_turn (k : nat) : string :=
  match k `mod` 3 with
  | 0 => "rock"
  | 1 => "paper"
  | _ => "scissors"
  end.

End Scissors.

(** * Facts about lists shared by the developments below *)

Section ListFacts.
Context {B : Type}.

(** A subsequence of a sorted list is sorted. *)
Lemma sorted_sublist (R : relation B) (l1 l2 : list B) :
  l1 `sublist_of` l2 → StronglySorted R l2 → StronglySorted R l1.
Proof.
  induction 1 as [|x l1 l2 Hsub IH|x l1 l2 Hsub IH]; intros Hsorted.
  - constructor.
  - apply StronglySorted_inv in Hsorted as [Hl2 Hx].
    constructor; [by apply IH|].
    apply Forall_forall. intros y Hy.
    eapply Forall_forall; [exact Hx|]. by eapply elem_of_sublist.
  - apply StronglySorted_inv in Hsorted as [Hl2 _]. by apply IH.
Qed.

(** A loop that appends the elements passing a test is a filter. *)
Lemma fold_left_append_if (test : B → bool) (l acc : list B) :
  fold_left (λ acc x, if test x then acc ++ [x] else acc) l acc =
  acc ++ filter (λ x, test x = true) l.
Proof.
  revert acc. induction l as [|x l IH]; intros acc; cbn [fold_left].
  - by rewrite filter_nil, app_nil_r.
  - rewrite IH, filter_cons. destruct (test x); case_decide; try done.
    by rewrite <- app_assoc.
Qed.

(** A loop that appends [f p] for each [p] is a map. *)
Lemma fold_left_append_map {C} (f : C → B) (l : list C) (acc : list B) :
  fold_left (λ acc p, acc ++ [f p]) l acc = acc ++ (f <$> l).
Proof.
  revert acc. induction l as [|p l IH]; intros acc; cbn [fold_left].
  - by rewrite app_nil_r.
  - rewrite IH, <- app_assoc. reflexivity.
Qed.
End ListFacts.

Lemma range_sorted lo hi : StronglySorted lt (range lo hi).
Proof.
  unfold range. generalize (hi - lo). intros n. revert lo.
  induction n as [|n IH]; intros lo; cbn [seq]; constructor; [done|].
  apply Forall_forall. intros i Hi. apply elem_of_seq in Hi. lia.
Qed.

Lemma rangeZ_sorted lo hi : StronglySorted Z.lt (Solver.rangeZ lo hi).
Proof.
  unfold Solver.rangeZ, seqZ.
  apply (StronglySorted_fmap _ lt); [intros; lia|].
  pose proof (range_sorted 0 (Z.to_nat (hi - lo))) as Hsorted.
  unfold range in Hsorted. by rewrite Nat.sub_0_r in Hsorted.
Qed.

(** * Properties of data_processor.py *)

Module ProcessorProofs.
Import DataProcessor.

Section Processor.
Context {num : Type} `{!Numeric num}.
Implicit Types (self : processor (num:=num)) (d : list num).

(** Running a sequence of two steps. *)
Lemma run_bind {A B} (m : method A) (k : A → method B) self :
  (m ≫= k) self =
  match m self with
  | (self', Return a) => k a self'
  | (self', Raise e) => (self', Raise e)
  end.
Proof. reflexivity. Qed.

Lemma run_ret {A} (a : A) self : (mret a : method A) self = (self, Return a).
Proof. reflexivity. Qed.

Lemma run_data_at self i x :
  data self !! i = Some x → data_at i self = (self, Return x).
Proof. intros Hx. unfold data_at. rewrite run_bind. simpl. by rewrite Hx. Qed.

Lemma run_len_data self : len_data self = (self, Return (length (data self))).
Proof. reflexivity. Qed.

(** ** add_numbers *)

Lemma add_numbers_cons_num x numbers self :
  add_numbers (PNum x :: numbers) self =
  add_numbers numbers {| data := data self ++ [x] |}.
Proof. reflexivity. Qed.

Lemma add_numbers_cons_bad v numbers self :
  isinstance_int_float v = false →
  add_numbers (v :: numbers) self = (self, Raise (ValueError v)).
Proof. by destruct v. Qed.

(** A call with numbers only appends all of them, in order. *)
Lemma add_numbers_all_valid xs self :
  add_numbers (PNum <$> xs) self = ({| data := data self ++ xs |}, Return tt).
Proof.
  revert self. induction xs as [|x xs IH]; intros self.
  - destruct self. simpl. by rewrite app_nil_r.
  - rewrite fmap_cons, add_numbers_cons_num, IH. simpl.
    by rewrite <- app_assoc.
Qed.

(** A list with a non-numeric element splits at the first such element. *)
Lemma first_invalid (numbers : list (pyval (num:=num))) :
  Exists (λ v, isinstance_int_float v = false) numbers →
  ∃ xs bad rest,
    numbers = (PNum <$> xs) ++ bad :: rest ∧ isinstance_int_float bad = false.
Proof.
  induction 1 as [v numbers Hv | v numbers _ IH].
  - by exists [], v, numbers.
  - destruct v as [x| |].
    + destruct IH as (xs & bad & rest & -> & Hbad).
      by exists (x :: xs), bad, rest.
    + by exists [], (PStr s), numbers.
    + by exists [], PNone, numbers.
Qed.

Lemma add_numbers_stops xs bad rest self :
  isinstance_int_float bad = false →
  add_numbers ((PNum <$> xs) ++ bad :: rest) self =
  ({| data := data self ++ xs |}, Raise (ValueError bad)).
Proof.
  intros Hbad. revert self. induction xs as [|x xs IH]; intros self.
  - simpl. rewrite add_numbers_cons_bad by done.
    destruct self. simpl. by rewrite app_nil_r.
  - rewrite fmap_cons. simpl. rewrite add_numbers_cons_num, IH. simpl.
    by rewrite <- app_assoc.
Qed.

(** C1, as the code has it: a call whose list holds a non-numeric element
    raises [ValueError] for the first such element, and the stored sequence
    is then the starting one followed by exactly the numbers of the call
    that come before that element; nothing from it on is appended. *)
Theorem add_numbers_first_invalid (numbers : list (pyval (num:=num))) self :
  Exists (λ v, isinstance_int_float v = false) numbers →
  ∃ xs bad rest,
    numbers = (PNum <$> xs) ++ bad :: rest ∧
    isinstance_int_float bad = false ∧
    add_numbers numbers self =
      ({| data := data self ++ xs |}, Raise (ValueError bad)).
Proof.
  intros Hex. destruct (first_invalid numbers Hex) as (xs & bad & rest & -> & Hbad).
  exists xs, bad, rest. split_and!; [done..|].
  by apply add_numbers_stops.
Qed.

(** ** running_average *)

Lemma run_arith {A} (result : outcome arithmetic_error A) self :
  arith result self =
  match result with
  | Return a => (self, Return a)
  | Raise e => (self, Raise (ArithmeticError e))
  end.
Proof. reflexivity. Qed.

Lemma sum_from_app t (xs ys : list num) :
  sum_from t (xs ++ ys) =
  match sum_from t xs with
  | Return t' => sum_from t' ys
  | Raise e => Raise e
  end.
Proof.
  revert t. induction xs as [|x xs IH]; intros t; [done|].
  cbn [app sum_from]. destruct (add t x); [apply IH|done].
Qed.

Lemma py_sum_snoc (before : list num) x t :
  py_sum before = Return t → py_sum (before ++ [x]) = add t x.
Proof.
  unfold py_sum. intros Ht. rewrite sum_from_app, Ht. cbn [sum_from].
  by destruct (add t x).
Qed.

(** The mean of the prefix that ends with the next element, from the sum
    of the elements before it. *)
Lemma prefix_mean_next (before : list num) x after t :
  py_sum before = Return t →
  prefix_mean (before ++ x :: after) (length before) =
  match add t x with
  | Return total => truediv total (of_int (Z.of_nat (S (length before))))
  | Raise e => Raise e
  end.
Proof.
  intros Ht. unfold prefix_mean.
  rewrite (take_app_add' before (x :: after) _ 1) by done.
  change (take 1 (x :: after)) with [x].
  rewrite (py_sum_snoc before x t Ht), Nat.add_1_r. done.
Qed.

(** The loop of [running_average] over the elements [rest] that follow
    [before], entered with the sum [t] of [before] and the list [r]. *)
Lemma average_loop (before rest : list num) t (r : list num) self :
  py_sum before = Return t →
  match prefix_means_from (length before) (before ++ rest) (length rest) with
  | Return averages =>
    ∃ total,
      for_acc (enumerate rest (S (length before))) (t, r)
        (λ '(i, num) '(total, result),
           total ← arith (add total num);
           average ← arith (truediv total (of_int (Z.of_nat i)));
           mret (total, result ++ [average])) self =
      (self, Return (total, r ++ averages))
  | Raise e =>
      for_acc (enumerate rest (S (length before))) (t, r)
        (λ '(i, num) '(total, result),
           total ← arith (add total num);
           average ← arith (truediv total (of_int (Z.of_nat i)));
           mret (total, result ++ [average])) self =
      (self, Raise (ArithmeticError e))
  end.
Proof.
  revert before t r. induction rest as [|x rest IH]; intros before t r Ht.
  - cbn. exists t. by rewrite app_nil_r.
  - cbn [length prefix_means_from enumerate for_acc].
    rewrite (prefix_mean_next before x rest t Ht), !run_bind, run_arith.
    destruct (add t x) as [t1|e] eqn:Hadd; [|done].
    rewrite run_bind, run_arith.
    destruct (truediv t1 _) as [a|e]; [|done]. rewrite run_ret.
    assert (py_sum (before ++ [x]) = Return t1) as Ht1.
    { by rewrite (py_sum_snoc before x t Ht). }
    specialize (IH (before ++ [x]) t1 (r ++ [a]) Ht1).
    rewrite length_app, Nat.add_1_r, <- app_assoc in IH. cbn [length app] in IH.
    destruct (prefix_means_from _ _ _) as [averages|e]; [|done].
    destruct IH as [total IH]. exists total. by rewrite IH, <- app_assoc.
Qed.

(** [running_average] leaves [self] as it was; it returns the means of the
    prefixes, or raises what the first of them that fails raises. *)
Lemma running_average_run self :
  running_average self =
  (self, match prefix_means (data self) with
         | Return averages => Return averages
         | Raise e => Raise (ArithmeticError e)
         end).
Proof.
  unfold running_average. rewrite run_bind. cbn [self_data].
  destruct (data self) as [|x d] eqn:Hd; [done|].
  rewrite run_bind. cbn [self_data]. rewrite Hd, run_bind.
  pose proof (average_loop [] (x :: d) (of_int 0) [] self eq_refl) as Hloop.
  unfold prefix_means. cbn [length app] in Hloop |- *.
  destruct (prefix_means_from 0 (x :: d) (S (length d))) as [averages|e].
  - destruct Hloop as [total ->]. done.
  - by rewrite Hloop.
Qed.

Lemma prefix_means_from_Return i (xs : list num) n averages :
  prefix_means_from i xs n = Return averages ↔
  length averages = n ∧
  ∀ j, j < n → ∃ a, averages !! j = Some a ∧ prefix_mean xs (i + j) = Return a.
Proof.
  revert i averages. induction n as [|n IH]; intros i averages.
  - cbn [prefix_means_from]. split.
    + intros [= <-]. split; [done|lia].
    + intros [->%nil_length_inv _]. done.
  - cbn [prefix_means_from]. split.
    + destruct (prefix_mean xs i) as [a|e] eqn:Hi; [|done].
      destruct (prefix_means_from (S i) xs n) as [rest|e] eqn:Hrest; [|done].
      intros [= <-]. apply IH in Hrest as [Hlen Hrest].
      split; [by rewrite <- Hlen|]. intros [|j] Hj.
      * exists a. by rewrite Nat.add_0_r.
      * destruct (Hrest j) as (b & Hb & Hmean); [lia|].
        exists b. split; [done|]. by rewrite Nat.add_succ_r.
    + intros [Hlen Hall]. destruct averages as [|a rest]; [done|].
      destruct (Hall 0) as (a' & [= <-] & Ha); [lia|].
      rewrite Nat.add_0_r in Ha. rewrite Ha.
      assert (prefix_means_from (S i) xs n = Return rest) as ->; [|done].
      apply IH. split; [by injection Hlen|]. intros j Hj.
      destruct (Hall (S j)) as (b & Hb & Hmean); [lia|].
      exists b. split; [done|]. by rewrite Nat.add_succ_r in Hmean.
Qed.

Lemma prefix_means_from_Raise i (xs : list num) n e :
  prefix_means_from i xs n = Raise e ↔
  ∃ j, j < n ∧ prefix_mean xs (i + j) = Raise e ∧
       ∀ j', j' < j → ∃ a, prefix_mean xs (i + j') = Return a.
Proof.
  revert i. induction n as [|n IH]; intros i.
  - cbn [prefix_means_from]. split; [done|]. intros (j & Hj & _). lia.
  - cbn [prefix_means_from]. split.
    + destruct (prefix_mean xs i) as [a|e'] eqn:Hi.
      * destruct (prefix_means_from (S i) xs n) as [rest|e'] eqn:Hrest; [done|].
        intros [= ->]. apply IH in Hrest as (j & Hj & Hmean & Hbefore).
        exists (S j). split_and!; [lia|by rewrite Nat.add_succ_r|].
        intros [|j'] Hj'.
        -- exists a. by rewrite Nat.add_0_r.
        -- destruct (Hbefore j') as [b Hb]; [lia|].
           exists b. by rewrite Nat.add_succ_r.
      * intros [= ->]. exists 0. split_and!; [lia|by rewrite Nat.add_0_r|lia].
    + intros ([|j] & Hj & Hmean & Hbefore).
      * rewrite Nat.add_0_r in Hmean. by rewrite Hmean.
      * destruct (Hbefore 0) as [a Ha]; [lia|].
        rewrite Nat.add_0_r in Ha. rewrite Ha.
        assert (prefix_means_from (S i) xs n = Raise e) as ->; [|done].
        apply IH. exists j. split_and!; [lia|by rewrite Nat.add_succ_r in Hmean|].
        intros j' Hj'. destruct (Hbefore (S j')) as [b Hb]; [lia|].
        exists b. by rewrite Nat.add_succ_r in Hb.
Qed.

(** C4, as the code has it: [running_average] leaves the stored sequence as
    it was, and on an empty sequence it returns the empty list.  It returns
    a list exactly when every [sum(S[0..i]) / (i+1)] has a value: the list
    then has the length of [S] and its entry at position [i] is that mean
    of the first [i+1] elements.  It raises exactly when some sum or
    division raises ([OverflowError] on an [int] too large for a [float]):
    it then raises the exception of the shortest prefix that fails. *)
Theorem running_average_prefix_means self :
  (running_average self).1 = self ∧
  (data self = [] → running_average self = (self, Return [])) ∧
  (∀ averages,
     running_average self = (self, Return averages) ↔
     length averages = length (data self) ∧
     ∀ i, i < length (data self) →
          ∃ a, averages !! i = Some a ∧ prefix_mean (data self) i = Return a) ∧
  (∀ e,
     running_average self = (self, Raise e) ↔
     ∃ i e',
       e = ArithmeticError e' ∧ i < length (data self) ∧
       prefix_mean (data self) i = Raise e' ∧
       ∀ j, j < i → ∃ a, prefix_mean (data self) j = Return a).
Proof.
  rewrite running_average_run. split_and!.
  - done.
  - intros Hd. by rewrite Hd.
  - intros averages. unfold prefix_means.
    rewrite <- (prefix_means_from_Return 0 (data self) (length (data self))).
    destruct (prefix_means_from 0 (data self) (length (data self))).
    + split; by intros [= ->].
    + split; intros ?; discriminate.
  - intros e. unfold prefix_means. split.
    + destruct (prefix_means_from 0 (data self) (length (data self)))
        as [?|e'] eqn:Hmeans; [done|].
      intros [= <-]. apply prefix_means_from_Raise in Hmeans
        as (i & Hi & Hmean & Hbefore).
      by exists i, e'.
    + intros (i & e' & -> & Hi & Hmean & Hbefore).
      assert (prefix_means_from 0 (data self) (length (data self)) = Raise e')
        as ->; [|done].
      apply prefix_means_from_Raise. by exists i.
Qed.

(** ** find_peaks *)

Lemma run_above threshold self i x :
  data self !! i = Some x →
  above threshold i self = (self, Return (exceeds threshold x)).
Proof.
  intros Hx. destruct threshold as [t|]; [|done].
  unfold above. by rewrite run_bind, (run_data_at _ _ _ Hx).
Qed.

(** One turn of the loop at an interior index: no lookup fails, [self] is
    untouched, and the pair is appended exactly when it is a peak. *)
Lemma peak_step_run threshold self i peaks :
  1 ≤ i → i + 1 < length (data self) →
  peak_step threshold i peaks self =
  (self, Return (peaks ++ omap (peak_value (data self) threshold) [i])).
Proof.
  intros Hlo Hhi.
  destruct (lookup_lt_is_Some_2 (data self) i) as [x Hx]; [lia|].
  destruct (lookup_lt_is_Some_2 (data self) (i - 1)) as [l Hl]; [lia|].
  destruct (lookup_lt_is_Some_2 (data self) (i + 1)) as [r Hr]; [lia|].
  unfold peak_step. cbn [omap list_omap]. unfold peak_value at 1.
  rewrite Hx, Hl, Hr.
  rewrite run_bind, (run_data_at _ _ _ Hx), run_bind, (run_data_at _ _ _ Hl).
  destruct (gt x l); cbn [andb]; [|by rewrite app_nil_r].
  rewrite run_bind, (run_data_at _ _ _ Hx), run_bind, (run_data_at _ _ _ Hr).
  destruct (gt x r); cbn [andb]; [|by rewrite app_nil_r].
  rewrite run_bind, (run_above _ _ _ _ Hx).
  destruct (exceeds threshold x); [|by rewrite app_nil_r].
  by rewrite run_bind, (run_data_at _ _ _ Hx).
Qed.

Lemma peak_loop_run threshold self (idxs : list nat) peaks :
  Forall (λ i, 1 ≤ i ∧ i + 1 < length (data self)) idxs →
  for_acc idxs peaks (peak_step threshold) self =
  (self, Return (peaks ++ omap (peak_value (data self) threshold) idxs)).
Proof.
  intros His. revert peaks.
  induction His as [|i idxs [Hlo Hhi] _ IH]; intros peaks.
  - simpl. by rewrite app_nil_r.
  - cbn [for_acc]. rewrite run_bind, peak_step_run, IH by done.
    rewrite <- app_assoc, <- omap_app. reflexivity.
Qed.

Lemma interior_range n :
  Forall (λ i, 1 ≤ i ∧ i + 1 < n) (range 1 (n - 1)).
Proof.
  apply Forall_forall. intros i Hi. unfold range in Hi.
  apply elem_of_seq in Hi. lia.
Qed.

(** [find_peaks] never raises, leaves [self] as it was, and returns the
    peaks listed by the comprehension [peaks_of]. *)
Lemma find_peaks_run threshold self :
  find_peaks threshold self = (self, Return (peaks_of (data self) threshold)).
Proof.
  unfold find_peaks. rewrite run_bind, run_len_data.
  destruct (length (data self) <? 3) eqn:Hlen.
  - apply Nat.ltb_lt in Hlen. rewrite run_ret. unfold peaks_of, range.
    by replace (length (data self) - 1 - 1) with 0 by lia.
  - rewrite run_bind, run_len_data.
    rewrite peak_loop_run by apply interior_range. reflexivity.
Qed.

Lemma peak_value_Some S threshold j i v :
  1 ≤ j →
  peak_value S threshold j = Some (i, v) ↔ i = j ∧ peak_at S threshold i v.
Proof.
  intros Hj. unfold peak_value, peak_at. split.
  - destruct (S !! j) as [x|] eqn:Hx; [|done].
    destruct (S !! (j - 1)) as [l|] eqn:Hl; [|done].
    destruct (S !! (j + 1)) as [r|] eqn:Hr; [|done].
    destruct (gt x l) eqn:Hxl, (gt x r) eqn:Hxr,
      (exceeds threshold x) eqn:Ht; try done.
    intros [= <- <-]. pose proof (lookup_lt_Some _ _ _ Hr).
    split_and!; try done. by exists l, r.
  - intros (-> & _ & _ & -> & (l & r & -> & -> & -> & ->) & ->). done.
Qed.

Lemma elem_of_peaks_of S threshold i v :
  (i, v) ∈ peaks_of S threshold ↔ peak_at S threshold i v.
Proof.
  unfold peaks_of. rewrite list_elem_of_omap. split.
  - intros (j & Hj & Hpk). unfold range in Hj. apply elem_of_seq in Hj.
    apply peak_value_Some in Hpk as [_ Hpk]; [done|lia].
  - intros Hpk. exists i. split.
    + destruct Hpk as (? & ? & _). unfold range. apply elem_of_seq. lia.
    + apply peak_value_Some; [by destruct Hpk|done].
Qed.

(** The indices kept by the comprehension are those of the range, in the
    order of the range. *)
Lemma peak_indices_sublist S threshold (idxs : list nat) :
  (omap (peak_value S threshold) idxs).*1 `sublist_of` idxs.
Proof.
  induction idxs as [|j idxs IH]; [done|]. cbn [omap list_omap].
  destruct (peak_value S threshold j) as [[i v]|] eqn:Hpk.
  - assert (i = j) as ->.
    { revert Hpk. unfold peak_value. repeat case_match; congruence. }
    by apply sublist_skip.
  - by apply sublist_cons.
Qed.

Lemma peaks_of_sorted S threshold :
  StronglySorted lt (peaks_of S threshold).*1.
Proof.
  eapply sorted_sublist; [apply peak_indices_sublist|apply range_sorted].
Qed.

(** C3: with fewer than 3 stored elements [find_peaks] returns the empty
    list and does not raise; otherwise it returns exactly the pairs
    [(i, value)] of the interior indices whose element is strictly greater
    than both neighbours and, when a threshold is given, than the threshold,
    by strictly ascending index. *)
Theorem find_peaks_interior_maxima threshold self :
  (length (data self) < 3 → find_peaks threshold self = (self, Return [])) ∧
  (3 ≤ length (data self) →
   ∃ peaks,
     find_peaks threshold self = (self, Return peaks) ∧
     (∀ i v, (i, v) ∈ peaks ↔ peak_at (data self) threshold i v) ∧
     StronglySorted lt peaks.*1).
Proof.
  split.
  - intros Hlen. rewrite find_peaks_run. unfold peaks_of, range.
    by replace (length (data self) - 1 - 1) with 0 by lia.
  - intros _. exists (peaks_of (data self) threshold). split_and!.
    + apply find_peaks_run.
    + apply elem_of_peaks_of.
    + apply peaks_of_sorted.
Qed.

Lemma peak_value_threshold S t j :
  omap (peak_value S (Some t)) [j] =
  filter (λ p, gt p.2 t = true) (omap (peak_value S None) [j]).
Proof.
  cbn [omap list_omap]. unfold peak_value.
  destruct (S !! j) as [x|]; [|done].
  destruct (S !! (j - 1)) as [l|]; [|done].
  destruct (S !! (j + 1)) as [r|]; [|done].
  cbn [exceeds]. rewrite andb_true_r.
  destruct (gt x l && gt x r); cbn [andb]; [|done].
  rewrite filter_cons, filter_nil. cbn [snd].
  destruct (gt x t); by case_decide.
Qed.

(** The thresholded comprehension keeps, of the peaks without threshold,
    those whose value is strictly greater than the threshold. *)
Lemma peaks_of_threshold S t :
  peaks_of S (Some t) = filter (λ p, gt p.2 t = true) (peaks_of S None).
Proof.
  unfold peaks_of. induction (range 1 (length S - 1)) as [|j idxs IH]; [done|].
  change (j :: idxs) with ([j] ++ idxs).
  by rewrite !omap_app, filter_app, IH, peak_value_threshold.
Qed.

(** C9: on a sequence of at least 3 elements, [find_peaks(t)] is
    [find_peaks()] filtered to the pairs whose value is strictly greater
    than [t]; so it is a subsequence of it: the same pairs in the same
    relative order, some left out. *)
Theorem find_peaks_threshold_filters self t :
  3 ≤ length (data self) →
  ∃ unfiltered,
    find_peaks None self = (self, Return unfiltered) ∧
    find_peaks (Some t) self =
      (self, Return (filter (λ p, gt p.2 t = true) unfiltered)) ∧
    filter (λ p, gt p.2 t = true) unfiltered `sublist_of` unfiltered.
Proof.
  intros _. exists (peaks_of (data self) None). split_and!.
  - apply find_peaks_run.
  - rewrite find_peaks_run. by rewrite peaks_of_threshold.
  - apply sublist_filter.
Qed.

(** ** Queries do not change the processor *)

Lemma attempt_running_average self :
  attempt running_average self =
  (self, Return match prefix_means (data self) with
                | Return averages => Return averages
                | Raise e => Raise (ArithmeticError e)
                end).
Proof. unfold attempt. by rewrite running_average_run. Qed.

Local Ltac run_queries :=
  repeat (rewrite run_bind, ?attempt_running_average, ?find_peaks_run;
          cbv beta iota).

(** C8: [running_average] and [find_peaks] leave the stored sequence as it
    was, and [find_peaks] returns (it does not raise).  Called again, also
    one after the other in any of these orders, with no [add_numbers] in
    between, each call does what it did the first time: it returns the same
    result, or, for [running_average] on a sequence with a number too large
    for a [float], raises the same exception (caught by the caller
    here). *)
Theorem queries_repeatable self threshold :
  ∃ averages peaks,
    running_average self = (self, averages) ∧
    find_peaks threshold self = (self, Return peaks) ∧
    (r1 ← attempt running_average; r2 ← attempt running_average;
     mret (r1, r2)) self =
      (self, Return (averages, averages)) ∧
    (p1 ← find_peaks threshold; p2 ← find_peaks threshold; mret (p1, p2)) self =
      (self, Return (peaks, peaks)) ∧
    (r1 ← attempt running_average; p1 ← find_peaks threshold;
     r2 ← attempt running_average; p2 ← find_peaks threshold;
     mret (r1, p1, r2, p2)) self =
      (self, Return (averages, peaks, averages, peaks)).
Proof.
  eexists _, _. split_and!.
  - apply running_average_run.
  - apply find_peaks_run.
  - by run_queries.
  - by run_queries.
  - by run_queries.
Qed.

End Processor.

(** C1, as the specification states it, fails: after [add_numbers([1, 'x'])]
    on a new processor the call has raised and [data] is [[1]], not [[]]. *)
Lemma add_numbers_not_atomic :
  Exists (λ v, isinstance_int_float v = false) [PNum 1%Q; PStr "x"] ∧
  add_numbers [PNum 1%Q; PStr "x"] __init__ =
    ({| data := [1%Q] |}, Raise (ValueError (PStr "x"))) ∧
  (add_numbers [PNum 1%Q; PStr "x"] __init__).1 ≠ __init__.
Proof.
  split_and!.
  - apply Exists_cons_tl, Exists_cons_hd. reflexivity.
  - reflexivity.
  - discriminate.
Qed.

Lemma add_numbers_first_invalid_witness :
  ∃ xs bad rest,
    [PNum 1%Q; PNum 2%Q; PNone; PNum 3%Q] = (PNum <$> xs) ++ bad :: rest ∧
    isinstance_int_float bad = false ∧
    add_numbers [PNum 1%Q; PNum 2%Q; PNone; PNum 3%Q] {| data := [5%Q] |} =
      ({| data := [5%Q] ++ xs |}, Raise (ValueError bad)).
Proof.
  apply (add_numbers_first_invalid [PNum 1%Q; PNum 2%Q; PNone; PNum 3%Q] {| data := [5%Q] |}).
  do 2 apply Exists_cons_tl. apply Exists_cons_hd. reflexivity.
Defined.

(** C4, as the specification states it, fails: [10**309] is an [int], so
    [add_numbers] stores it, and [running_average] then raises
    [OverflowError] at [total / i] instead of returning a list of length
    1. *)
Lemma running_average_overflow :
  add_numbers [PNum (Int (10 ^ 309))] __init__ =
    ({| data := [Int (10 ^ 309)] |}, Return tt) ∧
  [Int (10 ^ 309)] ≠ [] ∧
  running_average {| data := [Int (10 ^ 309)] |} =
    ({| data := [Int (10 ^ 309)] |}, Raise (ArithmeticError OverflowError)).
Proof. split_and!; [by vm_compute|done|by vm_compute]. Qed.

Lemma running_average_prefix_means_witness :
  running_average (__init__ (num:=number)) = (__init__, Return []) ∧
  running_average {| data := [Int 1; Int 3; Int 2; Int 4] |} =
    ({| data := [Int 1; Int 3; Int 2; Int 4] |},
     Return [Float (S754_finite false 4503599627370496 (-52));
             Float (S754_finite false 4503599627370496 (-51));
             Float (S754_finite false 4503599627370496 (-51));
             Float (S754_finite false 5629499534213120 (-51))]) ∧
  ∃ i e',
    ArithmeticError (num:=number) OverflowError = ArithmeticError e' ∧
    i < length [Int 1; Int (10 ^ 309)] ∧
    prefix_mean [Int 1; Int (10 ^ 309)] i = Raise e' ∧
    ∀ j, j < i → ∃ a, prefix_mean [Int 1; Int (10 ^ 309)] j = Return a.
Proof.
  split_and!.
  - destruct (running_average_prefix_means (__init__ (num:=number)))
      as (_ & Hempty & _).
    by apply Hempty.
  - destruct (running_average_prefix_means
                {| data := [Int 1; Int 3; Int 2; Int 4] |})
      as (_ & _ & Hreturns & _).
    apply Hreturns. split; [reflexivity|]. intros i Hi.
    do 4 (destruct i as [|i]; [eexists; split; [reflexivity|by vm_compute]|]).
    simpl in Hi. lia.
  - destruct (running_average_prefix_means
                {| data := [Int 1; Int (10 ^ 309)] |})
      as (_ & _ & _ & Hraises).
    apply Hraises. by vm_compute.
Defined.

Lemma find_peaks_interior_maxima_witness :
  find_peaks (Some 3%Q) {| data := [1; 3]%Q |} = ({| data := [1; 3]%Q |}, Return []) ∧
  ∃ peaks,
    find_peaks (Some 3%Q) {| data := [1; 3; 2; 4; 1; 5; 2; 6; 4]%Q |} =
      ({| data := [1; 3; 2; 4; 1; 5; 2; 6; 4]%Q |}, Return peaks) ∧
    (∀ i v, (i, v) ∈ peaks ↔
            peak_at [1; 3; 2; 4; 1; 5; 2; 6; 4]%Q (Some 3%Q) i v) ∧
    StronglySorted lt peaks.*1.
Proof.
  split.
  - apply (proj1 (find_peaks_interior_maxima (Some 3%Q) {| data := [1; 3]%Q |})).
    simpl. lia.
  - apply (proj2 (find_peaks_interior_maxima (Some 3%Q)
                    {| data := [1; 3; 2; 4; 1; 5; 2; 6; 4]%Q |})).
    simpl. lia.
Defined.

Lemma find_peaks_threshold_filters_witness :
  ∃ unfiltered,
    find_peaks None {| data := [1; 3; 2; 4; 1; 5; 2; 6; 4]%Q |} =
      ({| data := [1; 3; 2; 4; 1; 5; 2; 6; 4]%Q |}, Return unfiltered) ∧
    find_peaks (Some 3%Q) {| data := [1; 3; 2; 4; 1; 5; 2; 6; 4]%Q |} =
      ({| data := [1; 3; 2; 4; 1; 5; 2; 6; 4]%Q |},
       Return (filter (λ p, gt p.2 3%Q = true) unfiltered)) ∧
    filter (λ p, gt p.2 3%Q = true) unfiltered `sublist_of` unfiltered.
Proof.
  apply (find_peaks_threshold_filters {| data := [1; 3; 2; 4; 1; 5; 2; 6; 4]%Q |} 3%Q).
  simpl. lia.
Defined.

(** The run of [main.py]: the peaks of [[1, 3, 2, 4, 1, 5, 2, 6, 4]] above
    [3.0], and without a threshold. *)
Example find_peaks_main :
  find_peaks (Some 3%Q) {| data := [1; 3; 2; 4; 1; 5; 2; 6; 4]%Q |} =
    ({| data := [1; 3; 2; 4; 1; 5; 2; 6; 4]%Q |},
     Return [(3, 4%Q); (5, 5%Q); (7, 6%Q)]) ∧
  find_peaks None {| data := [1; 3; 2; 4; 1; 5; 2; 6; 4]%Q |} =
    ({| data := [1; 3; 2; 4; 1; 5; 2; 6; 4]%Q |},
     Return [(1, 3%Q); (3, 4%Q); (5, 5%Q); (7, 6%Q)]).
Proof. split; reflexivity. Qed.

(** ** Further properties of the processor *)

Section Ingestion.
Context {num : Type} `{!Numeric num}.
Implicit Types (self : processor (num:=num)) (d xs : list num).

(** A loop over a concatenation runs the loop over the first list and, when
    it returned, the loop over the second. *)
Lemma for_in_app {B} (xs ys : list B) (body : B → method unit) self :
  for_in (xs ++ ys) body self = (for_in xs body ≫= λ _, for_in ys body) self.
Proof.
  revert self. induction xs as [|x xs IH]; intros self; [done|].
  cbn [app for_in]. rewrite !run_bind.
  destruct (body x self) as [self' [[]|e]]; [|done].
  by rewrite IH, run_bind.
Qed.

Lemma all_numeric (numbers : list (pyval (num:=num))) :
  Forall (λ v, isinstance_int_float v = true) numbers →
  ∃ xs, numbers = PNum <$> xs.
Proof.
  induction 1 as [|v numbers Hv _ [xs ->]]; [by exists []|].
  destruct v as [x| |]; try done. by exists (x :: xs).
Qed.

Lemma numeric_or_not (numbers : list (pyval (num:=num))) :
  Forall (λ v, isinstance_int_float v = true) numbers ∨
  Exists (λ v, isinstance_int_float v = false) numbers.
Proof.
  induction numbers as [|v numbers [IH|IH]].
  - left. constructor.
  - destruct (isinstance_int_float v) eqn:Hv.
    + left. by constructor.
    + right. by apply Exists_cons_hd.
  - right. by apply Exists_cons_tl.
Qed.

(** X1: [add_numbers] returns exactly when every element of the list is an
    [int] or a [float], and a call with such a list appends all of its
    elements to [data], in the order of the list. *)
Theorem add_numbers_returns_iff (numbers : list (pyval (num:=num))) self :
  ((∃ self', add_numbers numbers self = (self', Return tt)) ↔
   Forall (λ v, isinstance_int_float v = true) numbers) ∧
  ∀ xs, add_numbers (PNum <$> xs) self =
        ({| data := data self ++ xs |}, Return tt).
Proof.
  split; [|intros xs; apply add_numbers_all_valid]. split.
  - intros [self' Hrun].
    destruct (numeric_or_not numbers) as [Hall|Hbad]; [done|].
    destruct (first_invalid numbers Hbad) as (xs & bad & rest & -> & Hv).
    by rewrite add_numbers_stops in Hrun.
  - intros Hall. destruct (all_numeric numbers Hall) as [xs ->].
    eexists. apply add_numbers_all_valid.
Qed.

(** X2: one call with the list [a + b] does what a call with [a] followed,
    if it returned, by a call with [b] does: the same exception or return,
    and the same stored sequence. *)
Theorem add_numbers_concat (a b : list (pyval (num:=num))) self :
  add_numbers (a ++ b) self = (add_numbers a ≫= λ _, add_numbers b) self.
Proof. apply for_in_app. Qed.

(** X3: whatever the outcome of [add_numbers], the stored sequence after the
    call is the one before it followed by the numbers of some prefix of the
    list: nothing stored before is removed, changed or reordered, and the
    new elements are the leading elements of the list, in order. *)
Theorem add_numbers_only_appends (numbers : list (pyval (num:=num))) self :
  ∃ xs, data (add_numbers numbers self).1 = data self ++ xs ∧
        (PNum <$> xs) `prefix_of` numbers.
Proof.
  destruct (numeric_or_not numbers) as [Hall|Hbad].
  - destruct (all_numeric numbers Hall) as [xs ->].
    exists xs. by rewrite add_numbers_all_valid.
  - destruct (first_invalid numbers Hbad) as (xs & bad & rest & -> & Hv).
    exists xs. rewrite add_numbers_stops by done. split; [done|].
    by apply prefix_app_r.
Qed.

Lemma prefix_mean_app d xs i :
  i < length d → prefix_mean (d ++ xs) i = prefix_mean d i.
Proof.
  intros Hi. unfold prefix_mean. by rewrite take_app_le by lia.
Qed.

Lemma prefix_means_from_ext i (xs ys : list num) n :
  (∀ j, j < n → prefix_mean xs (i + j) = prefix_mean ys (i + j)) →
  prefix_means_from i xs n = prefix_means_from i ys n.
Proof.
  revert i. induction n as [|n IH]; intros i Hext; [done|].
  cbn [prefix_means_from].
  pose proof (Hext 0 ltac:(lia)) as H0. rewrite Nat.add_0_r in H0.
  rewrite H0, (IH (S i)); [done|]. intros j Hj.
  cbn [Nat.add]. rewrite <- Nat.add_succ_r. apply Hext. lia.
Qed.

Lemma prefix_means_from_add i (xs : list num) n m :
  prefix_means_from i xs (n + m) =
  match prefix_means_from i xs n with
  | Return averages =>
    match prefix_means_from (i + n) xs m with
    | Return more => Return (averages ++ more)
    | Raise e => Raise e
    end
  | Raise e => Raise e
  end.
Proof.
  revert i. induction n as [|n IH]; intros i.
  - cbn [prefix_means_from Nat.add]. rewrite Nat.add_0_r.
    by destruct (prefix_means_from i xs m).
  - cbn [prefix_means_from Nat.add].
    destruct (prefix_mean xs i) as [a|e]; [|done].
    rewrite IH, Nat.add_succ_r. cbn [Nat.add].
    destruct (prefix_means_from (S i) xs n) as [averages|e]; [|done].
    by destruct (prefix_means_from (S (i + n)) xs m).
Qed.

(** The means of the longer sequence: those of the shorter one, then those
    of the prefixes that reach into the new elements. *)
Lemma prefix_means_app d xs :
  prefix_means (d ++ xs) =
  match prefix_means d with
  | Return averages =>
    match prefix_means_from (length d) (d ++ xs) (length xs) with
    | Return more => Return (averages ++ more)
    | Raise e => Raise e
    end
  | Raise e => Raise e
  end.
Proof.
  unfold prefix_means. rewrite length_app, prefix_means_from_add.
  rewrite (prefix_means_from_ext 0 (d ++ xs) d); [done|].
  intros j Hj. by apply prefix_mean_app.
Qed.

(** X4: ingesting more numbers does not change the running averages already
    there.  If [running_average] returned a list before a call of
    [add_numbers] that returned, then after it it returns that list followed
    by one new entry per number added, or it raises (a new sum or division
    overflows); if it raised before, it raises the same exception after. *)
Theorem running_average_extends self xs :
  ∃ before,
    running_average self = (self, before) ∧
    match before with
    | Return averages =>
      (∃ more,
         (add_numbers (PNum <$> xs) ≫= λ _, running_average) self =
           ({| data := data self ++ xs |}, Return (averages ++ more)) ∧
         length more = length xs) ∨
      (∃ e,
         (add_numbers (PNum <$> xs) ≫= λ _, running_average) self =
           ({| data := data self ++ xs |}, Raise (ArithmeticError e)))
    | Raise e =>
      (add_numbers (PNum <$> xs) ≫= λ _, running_average) self =
        ({| data := data self ++ xs |}, Raise e)
    end.
Proof.
  eexists. split; [apply running_average_run|].
  rewrite run_bind, add_numbers_all_valid, running_average_run.
  cbn [data]. rewrite prefix_means_app.
  destruct (prefix_means (data self)) as [averages|e]; [|done].
  destruct (prefix_means_from (length (data self)) (data self ++ xs) (length xs))
    as [more|e] eqn:Hmore.
  - left. exists more. split; [done|].
    by apply prefix_means_from_Return in Hmore as [Hlen _].
  - right. by exists e.
Qed.

Lemma peak_value_app d xs threshold i :
  i + 1 < length d →
  peak_value (d ++ xs) threshold i = peak_value d threshold i.
Proof.
  intros Hi. unfold peak_value. by rewrite !lookup_app_l by lia.
Qed.

Lemma peak_values_app d xs threshold (idxs : list nat) :
  Forall (λ i, i + 1 < length d) idxs →
  omap (peak_value (d ++ xs) threshold) idxs = omap (peak_value d threshold) idxs.
Proof.
  induction 1 as [|i idxs Hi _ IH]; [done|].
  cbn [omap list_omap]. by rewrite IH, peak_value_app.
Qed.

(** The interior indices of the longer sequence: those of the shorter one,
    then the new ones. *)
Lemma peaks_of_app d xs threshold :
  peaks_of (d ++ xs) threshold =
  peaks_of d threshold ++
  omap (peak_value (d ++ xs) threshold)
       (seq (1 + (length d - 2)) (length (d ++ xs) - 2 - (length d - 2))).
Proof.
  unfold peaks_of, range. rewrite length_app.
  replace (length d + length xs - 1 - 1)
    with ((length d - 2) + (length d + length xs - 2 - (length d - 2))) by lia.
  rewrite seq_app, omap_app.
  replace (length d - 1 - 1) with (length d - 2) by lia.
  f_equal. apply peak_values_app.
  apply Forall_forall. intros i Hi%elem_of_seq. lia.
Qed.

(** X5: ingesting more numbers does not remove or move the peaks already
    found: after a call of [add_numbers] that returned, [find_peaks] (with
    the same threshold) returns the list it returned before the call,
    followed by the new peaks, which lie at the old last position or
    later. *)
Theorem find_peaks_extends threshold self xs :
  ∃ peaks more,
    find_peaks threshold self = (self, Return peaks) ∧
    (add_numbers (PNum <$> xs) ≫= λ _, find_peaks threshold) self =
      ({| data := data self ++ xs |}, Return (peaks ++ more)) ∧
    Forall (λ p, length (data self) - 1 ≤ p.1) more.
Proof.
  eexists _, _. split_and!.
  - apply find_peaks_run.
  - rewrite run_bind, add_numbers_all_valid, find_peaks_run.
    cbn [data]. by rewrite peaks_of_app.
  - apply Forall_forall. intros [i v] (j & Hj & Hpk)%list_elem_of_omap.
    apply elem_of_seq in Hj.
    apply peak_value_Some in Hpk as [-> _]; [|lia]. cbn [fst]. lia.
Qed.

(** X6: two neighbouring positions are never both peaks, for a comparison
    [>] that does not hold in both directions (as Python's does not on
    [int] and [float], [nan] included). *)
Theorem find_peaks_not_adjacent threshold self :
  (∀ x y : num, gt x y = true → gt y x = false) →
  ∃ peaks,
    find_peaks threshold self = (self, Return peaks) ∧
    ∀ i v w, (i, v) ∈ peaks → (i + 1, w) ∉ peaks.
Proof.
  intros Hasym. exists (peaks_of (data self) threshold).
  split; [apply find_peaks_run|].
  intros i v w Hv%elem_of_peaks_of Hw%elem_of_peaks_of.
  destruct Hv as (_ & _ & Hiv & (l & r & _ & Hr & _ & Hvr) & _).
  destruct Hw as (_ & _ & Hiw & (l' & r' & Hl' & _ & Hwl & _) & _).
  replace (i + 1 - 1) with i in Hl' by lia.
  assert (r = w) as -> by congruence. assert (l' = v) as -> by congruence.
  apply Hasym in Hvr. congruence.
Qed.

End Ingestion.

Lemma Q_gt_asym (x y : Q) : gt x y = true → gt y x = false.
Proof.
  cbn [gt Q_numeric]. intros Hxy%negb_true_iff.
  apply negb_false_iff, Qle_bool_iff.
  destruct (Qlt_le_dec y x) as [Hlt|Hle]; [by apply Qlt_le_weak|].
  apply Qle_bool_iff in Hle. congruence.
Qed.

Lemma find_peaks_not_adjacent_witness :
  ∃ peaks,
    find_peaks None {| data := [1; 3; 2; 4; 1]%Q |} =
      ({| data := [1; 3; 2; 4; 1]%Q |}, Return peaks) ∧
    ∀ i v w, (i, v) ∈ peaks → (i + 1, w) ∉ peaks.
Proof.
  apply (find_peaks_not_adjacent None {| data := [1; 3; 2; 4; 1]%Q |}).
  exact Q_gt_asym.
Defined.

End ProcessorProofs.

(** * Properties of solve.py *)

Module SolverProofs.
Import Solver.

Section Text.
Context {char : Type} `{Countable char}.
Variable isalnum : char → bool.
Variable lower : char → list char.
Implicit Types (text s : list char) (c : char).

(** The generator expression computes the normalized string. *)
Lemma cleaned_normalize text : cleaned isalnum lower text = normalize isalnum lower text.
Proof.
  unfold cleaned. induction text as [|c text IH]; [done|].
  cbn [List.filter normalize]. destruct (isalnum c); [|done].
  cbn [map concat]. by rewrite IH.
Qed.

Lemma is_palindrome_iff text :
  is_palindrome isalnum lower text = true ↔
  normalize isalnum lower text = reverse (normalize isalnum lower text).
Proof.
  unfold is_palindrome. rewrite cleaned_normalize.
  rewrite <- Is_true_true. apply bool_decide_spec.
Qed.

Lemma short_reverse s : length s ≤ 1 → s = reverse s.
Proof. destruct s as [|c [|c' s]]; simpl; [done|done|lia]. Qed.

Lemma is_palindrome_short text :
  length (normalize isalnum lower text) ≤ 1 →
  is_palindrome isalnum lower text = true.
Proof. intros Hlen. by apply is_palindrome_iff, short_reverse. Qed.

(** ** are_anagrams *)

Lemma occurrences_nonneg c s : (0 ≤ occurrences c s)%Z.
Proof. unfold occurrences. lia. Qed.

Lemma occurrences_cons c c' s :
  occurrences c (c' :: s) =
  ((if decide (c = c') then 1 else 0) + occurrences c s)%Z.
Proof.
  unfold occurrences. rewrite filter_cons.
  case_decide; cbn [length]; lia.
Qed.

Lemma occurrences_not_elem c s : c ∉ s → occurrences c s = 0%Z.
Proof.
  induction s as [|c' s IH]; [done|]. intros Hc.
  apply not_elem_of_cons in Hc as [Hne Hc].
  rewrite occurrences_cons, IH by done. by case_decide.
Qed.

Lemma occurrences_elem c s : c ∈ s → (0 < occurrences c s)%Z.
Proof.
  induction s as [|c' s IH]; [by intros ?%elem_of_nil|].
  intros Hc. rewrite occurrences_cons.
  pose proof (occurrences_nonneg c s).
  apply elem_of_cons in Hc as [->|Hc].
  - rewrite decide_True by done. lia.
  - specialize (IH Hc). case_decide; lia.
Qed.

(** The dictionary after the counting loop over [s], started from [freq]. *)
Lemma count_loop_lookup s (freq : gmap char Z) c :
  fold_left (λ freq char, <[char := (default 0 (freq !! char) + 1)%Z]> freq) s freq !! c =
  if decide (c ∈ s) then Some (default 0 (freq !! c) + occurrences c s)%Z
  else freq !! c.
Proof.
  revert freq. induction s as [|c' s IH]; intros freq; cbn [fold_left].
  - by rewrite decide_False by apply not_elem_of_nil.
  - rewrite IH, occurrences_cons. destruct (decide (c = c')) as [->|Hne].
    + rewrite lookup_insert_eq. cbn [default].
      rewrite (decide_True (P := c' ∈ c' :: s)) by apply list_elem_of_here.
      unfold id. case_decide as Hc; [f_equal; lia|].
      rewrite occurrences_not_elem by done. f_equal.
    + rewrite lookup_insert_ne by done.
      case_decide as Hc.
      * rewrite decide_True by by apply list_elem_of_further. f_equal.
      * rewrite decide_False; [done|].
        intros [?|?]%elem_of_cons; done.
Qed.

Lemma count_chars_lookup s c :
  count_chars s !! c = if decide (c ∈ s) then Some (occurrences c s) else None.
Proof.
  unfold count_chars. rewrite count_loop_lookup, lookup_empty.
  by case_decide.
Qed.

Lemma frequency_map_lookup s c :
  frequency_map s !! c = if decide (c ∈ s) then Some (occurrences c s) else None.
Proof.
  unfold frequency_map. case_decide as Hc.
  - apply elem_of_list_to_map_1'.
    + intros n (c' & [= <- ->] & _)%list_elem_of_fmap. done.
    + apply list_elem_of_fmap. by exists c.
  - apply not_elem_of_list_to_map_1.
    rewrite <- list_fmap_compose. intros (c' & -> & Hc')%list_elem_of_fmap.
    done.
Qed.

(** The dictionary built by the loop is the frequency map. *)
Lemma count_chars_frequency_map s : count_chars s = frequency_map s.
Proof.
  apply map_eq. intros c. by rewrite count_chars_lookup, frequency_map_lookup.
Qed.

Lemma are_anagrams_empty str1 str2 :
  normalize isalnum lower str1 = [] ∨ normalize isalnum lower str2 = [] →
  are_anagrams isalnum lower str1 str2 = false.
Proof.
  unfold are_anagrams. rewrite !cleaned_normalize.
  intros [-> | ->]; [done|]. by rewrite orb_true_r.
Qed.

Lemma are_anagrams_iff str1 str2 :
  normalize isalnum lower str1 ≠ [] → normalize isalnum lower str2 ≠ [] →
  are_anagrams isalnum lower str1 str2 = true ↔
  frequency_map (normalize isalnum lower str1) =
  frequency_map (normalize isalnum lower str2).
Proof.
  intros H1 H2. unfold are_anagrams.
  rewrite !cleaned_normalize, !count_chars_frequency_map.
  destruct (normalize isalnum lower str1) as [|c1 s1]; [done|].
  destruct (normalize isalnum lower str2) as [|c2 s2]; [done|].
  cbn [falsy orb]. rewrite <- Is_true_true. apply bool_decide_spec.
Qed.

Lemma occurrences_Permutation c s1 s2 :
  s1 ≡ₚ s2 → occurrences c s1 = occurrences c s2.
Proof. intros Hp. unfold occurrences. by rewrite Hp. Qed.

Lemma elem_of_occurrences c s : c ∈ s ↔ (0 < occurrences c s)%Z.
Proof.
  split; [apply occurrences_elem|]. intros Hpos.
  destruct (decide (c ∈ s)) as [|Hc]; [done|].
  rewrite occurrences_not_elem in Hpos by done. lia.
Qed.

(** Equal frequency maps: every character occurs equally often. *)
Lemma frequency_map_eq_iff s1 s2 :
  frequency_map s1 = frequency_map s2 ↔
  ∀ c, occurrences c s1 = occurrences c s2.
Proof.
  split.
  - intros Heq c. pose proof (frequency_map_lookup s1 c) as H1.
    rewrite Heq, frequency_map_lookup in H1.
    destruct (decide (c ∈ s1)) as [Hc1|Hc1], (decide (c ∈ s2)) as [Hc2|Hc2];
      try done.
    + congruence.
    + by rewrite !occurrences_not_elem.
  - intros Hocc. apply map_eq. intros c. rewrite !frequency_map_lookup.
    pose proof (elem_of_occurrences c s1) as H1.
    pose proof (elem_of_occurrences c s2) as H2. rewrite Hocc in H1.
    destruct (decide (c ∈ s1)), (decide (c ∈ s2)); try tauto.
    by rewrite Hocc.
Qed.

Lemma occurrences_Permutation_inv s1 s2 :
  (∀ c, occurrences c s1 = occurrences c s2) → s1 ≡ₚ s2.
Proof.
  revert s2. induction s1 as [|c s1 IH]; intros s2 Hocc.
  - destruct s2 as [|c s2]; [done|].
    specialize (Hocc c). rewrite occurrences_cons, decide_True in Hocc by done.
    pose proof (occurrences_nonneg c s2). unfold occurrences in Hocc at 1.
    rewrite filter_nil in Hocc. simpl in Hocc. lia.
  - assert (c ∈ s2) as [s2' Hs2]%elem_of_Permutation.
    { apply elem_of_occurrences. rewrite <- Hocc, occurrences_cons.
      rewrite decide_True by done. pose proof (occurrences_nonneg c s1). lia. }
    rewrite Hs2. f_equiv. apply IH. intros c'.
    specialize (Hocc c').
    rewrite (occurrences_Permutation c' s2 _ Hs2), !occurrences_cons in Hocc.
    lia.
Qed.

(** What the comparison of the two dictionaries decides: the normalized
    strings are rearrangements of each other. *)
Lemma frequency_map_Permutation s1 s2 :
  frequency_map s1 = frequency_map s2 ↔ s1 ≡ₚ s2.
Proof.
  rewrite frequency_map_eq_iff. split.
  - apply occurrences_Permutation_inv.
  - intros Hp c. by apply occurrences_Permutation.
Qed.

Corollary are_anagrams_Permutation str1 str2 :
  are_anagrams isalnum lower str1 str2 = true ↔
  normalize isalnum lower str1 ≠ [] ∧
  normalize isalnum lower str1 ≡ₚ normalize isalnum lower str2.
Proof.
  destruct (normalize isalnum lower str1) as [|c1 s1] eqn:Hs1.
  { rewrite (are_anagrams_empty str1 str2 (or_introl Hs1)).
    split; [done|]. by intros [? _]. }
  destruct (normalize isalnum lower str2) as [|c2 s2] eqn:Hs2.
  { rewrite (are_anagrams_empty str1 str2 (or_intror Hs2)). split; [done|].
    intros [_ Hp]. by apply Permutation_nil_r in Hp. }
  rewrite are_anagrams_iff; [|by rewrite Hs1|by rewrite Hs2].
  rewrite Hs1, Hs2, frequency_map_Permutation.
  split; [by split|]. by intros [_ ?].
Qed.

End Text.

(** C7: [is_palindrome] returns [True] exactly when the normalized string
    (the alphanumeric characters, lower-cased) equals its reverse; it returns
    [True] when the normalized string has at most one character;
    ["A man a plan a canal Panama"] is a palindrome and ["hello"] is not. *)
Theorem is_palindrome_normalized_reverse :
  (∀ (char : Type) `(Countable char) (isalnum : char → bool)
     (lower : char → list char) (text : list char),
     (is_palindrome isalnum lower text = true ↔
      normalize isalnum lower text = reverse (normalize isalnum lower text)) ∧
     (length (normalize isalnum lower text) ≤ 1 →
      is_palindrome isalnum lower text = true)) ∧
  is_palindrome ascii_isalnum ascii_lower (str "A man a plan a canal Panama") = true ∧
  is_palindrome ascii_isalnum ascii_lower (str "hello") = false.
Proof.
  split_and!.
  - intros char ?? isalnum lower text. split.
    + apply is_palindrome_iff.
    + apply is_palindrome_short.
  - reflexivity.
  - reflexivity.
Qed.

Lemma is_palindrome_normalized_reverse_witness :
  normalize ascii_isalnum ascii_lower (str "-Z-") = str "z" ∧
  is_palindrome ascii_isalnum ascii_lower (str "-Z-") = true.
Proof.
  split; [reflexivity|].
  apply (proj1 is_palindrome_normalized_reverse ascii _ _
           ascii_isalnum ascii_lower (str "-Z-")).
  simpl. lia.
Defined.

(** C6: [are_anagrams] returns [False] when either normalized string is
    empty; otherwise it returns [True] exactly when the character-frequency
    maps of the two normalized strings are equal, which is to have the same
    keys with the same counts; ["listen"] and ["silent"] are anagrams, two
    empty strings are not. *)
Theorem are_anagrams_frequency_maps :
  (∀ (char : Type) `(Countable char) (isalnum : char → bool)
     (lower : char → list char) (a b : list char),
     (normalize isalnum lower a = [] ∨ normalize isalnum lower b = [] →
      are_anagrams isalnum lower a b = false) ∧
     (normalize isalnum lower a ≠ [] → normalize isalnum lower b ≠ [] →
      (are_anagrams isalnum lower a b = true ↔
       frequency_map (normalize isalnum lower a) =
       frequency_map (normalize isalnum lower b)) ∧
      (frequency_map (normalize isalnum lower a) =
       frequency_map (normalize isalnum lower b) ↔
       ∀ c, frequency_map (normalize isalnum lower a) !! c =
            frequency_map (normalize isalnum lower b) !! c))) ∧
  are_anagrams ascii_isalnum ascii_lower (str "listen") (str "silent") = true ∧
  are_anagrams ascii_isalnum ascii_lower (str "") (str "") = false.
Proof.
  split_and!.
  - intros char ?? isalnum lower a b. split.
    + apply are_anagrams_empty.
    + intros Ha Hb. split; [by apply are_anagrams_iff|].
      split; [by intros ->|apply map_eq].
  - reflexivity.
  - reflexivity.
Qed.

Lemma are_anagrams_frequency_maps_witness :
  are_anagrams ascii_isalnum ascii_lower (str "!?") (str "silent") = false ∧
  (are_anagrams ascii_isalnum ascii_lower (str "Dormitory") (str "dirty room") = true ↔
   frequency_map (normalize ascii_isalnum ascii_lower (str "Dormitory")) =
   frequency_map (normalize ascii_isalnum ascii_lower (str "dirty room"))).
Proof.
  split.
  - apply (proj1 (proj1 are_anagrams_frequency_maps ascii _ _
                    ascii_isalnum ascii_lower (str "!?") (str "silent"))).
    left. reflexivity.
  - apply (proj2 (proj1 are_anagrams_frequency_maps ascii _ _
                    ascii_isalnum ascii_lower (str "Dormitory") (str "dirty room")));
      discriminate.
Defined.

(** ** find_factors *)

Section Factors.
Local Open Scope Z_scope.

(** For a positive [int] the loop keeps the numbers of [range(1, n + 1)]
    with [n % i == 0]. *)
Lemma find_factors_positive n z :
  as_int n = Some z → 0 < z →
  find_factors n =
  Return (filter (λ i, (z `mod` i =? 0) = true) (rangeZ 1 (z + 1))).
Proof.
  intros Hn Hz. unfold find_factors. rewrite Hn.
  destruct (z <=? 0) eqn:Hle; [lia|].
  by rewrite fold_left_append_if.
Qed.

Lemma find_factors_raises n :
  (∃ e, find_factors n = Raise e) ↔
  as_int n = None ∨ ∃ z, as_int n = Some z ∧ z ≤ 0.
Proof.
  unfold find_factors. destruct (as_int n) as [z|].
  - destruct (z <=? 0) eqn:Hle; split.
    + intros _. right. exists z. split; [done|lia].
    + intros _. by eexists.
    + by intros [e ?].
    + intros [?|(z' & [= <-] & ?)]; [done|lia].
  - split; [by left|]. intros _. by eexists.
Qed.

Lemma elem_of_factors z i :
  0 < z →
  i ∈ filter (λ i, (z `mod` i =? 0) = true) (rangeZ 1 (z + 1)) ↔
  1 ≤ i ≤ z ∧ (i | z).
Proof.
  intros Hz. rewrite list_elem_of_filter. unfold rangeZ.
  rewrite elem_of_seqZ, Z.eqb_eq. split.
  - intros [Hmod Hi]. split; [lia|]. apply Z.mod_divide; [lia|done].
  - intros [Hi Hdiv]. split; [|lia]. apply Z.mod_divide; [lia|done].
Qed.

(** C5: [find_factors] raises [ValueError] exactly when its argument is
    not an [int] or is [<= 0]; for a positive [int] [n] it returns exactly
    the integers of [[1, n]] that divide [n], in strictly ascending order;
    [find_factors(28)] is [[1, 2, 4, 7, 14, 28]], and [find_factors(0)] and
    [find_factors(-3)] raise. *)
Theorem find_factors_divisors :
  (∀ n, (∃ e, find_factors n = Raise e) ↔
        as_int n = None ∨ ∃ z, as_int n = Some z ∧ z ≤ 0) ∧
  (∀ n z, as_int n = Some z → 0 < z →
     ∃ factors,
       find_factors n = Return factors ∧
       (∀ i, i ∈ factors ↔ 1 ≤ i ≤ z ∧ (i | z)) ∧
       StronglySorted Z.lt factors) ∧
  find_factors (PyInt 28) = Return [1; 2; 4; 7; 14; 28] ∧
  find_factors (PyInt 0) = Raise (ValueError "Input must be positive") ∧
  find_factors (PyInt (-3)) = Raise (ValueError "Input must be positive").
Proof.
  split_and!; [apply find_factors_raises| |reflexivity..].
  intros n z Hn Hz. eexists. split_and!.
  - by apply find_factors_positive.
  - intros i. by apply elem_of_factors.
  - eapply sorted_sublist; [apply sublist_filter|apply rangeZ_sorted].
Qed.

Lemma find_factors_divisors_witness :
  ∃ factors,
    find_factors (PyInt 12) = Return factors ∧
    (∀ i, i ∈ factors ↔ 1 ≤ i ≤ 12 ∧ (i | 12)) ∧
    StronglySorted Z.lt factors.
Proof.
  apply (proj1 (proj2 find_factors_divisors) (PyInt 12) 12).
  - reflexivity.
  - lia.
Defined.

(** Objects that are not instances of [int] are rejected, and [bool]
    arguments are taken as the integers they are. *)
Example find_factors_other_types :
  find_factors (PyFloat 28) = Raise (ValueError "Input must be an integer") ∧
  find_factors (PyStr "28") = Raise (ValueError "Input must be an integer") ∧
  find_factors PyNone = Raise (ValueError "Input must be an integer") ∧
  find_factors (PyBool true) = Return [1] ∧
  find_factors (PyBool false) = Raise (ValueError "Input must be positive").
Proof. split_and!; reflexivity. Qed.
End Factors.

(** ** get_permutations *)

Section Permutations.
Context {A : Type}.
Implicit Types (items p q : list A).

Lemma getitem_lookup items i (Hi : (i < length items)%nat) :
  items !! i = Some (getitem items i Hi).
Proof.
  revert i Hi. induction items as [|x items IH]; intros i Hi.
  - simpl in Hi. lia.
  - destruct i as [|i]; [done|]. cbn [getitem]. apply IH.
Qed.

(** A loop whose body does not look at the range proof is a fold. *)
Lemma for_each_in_fold {B S} (xs : list B) (body : ∀ x, In x xs → S → S)
    (f : B → S → S) (acc : S) :
  (∀ x Hx acc, body x Hx acc = f x acc) →
  for_each_in xs body acc = fold_left (λ acc x, f x acc) xs acc.
Proof.
  revert acc. induction xs as [|x xs IH]; intros acc Hbody; [done|].
  cbn [for_each_in fold_left]. rewrite Hbody. apply IH.
  intros y Hy acc'. apply Hbody.
Qed.

Lemma fold_left_append_blocks {B} (g : B → list (list A)) (xs : list B) acc :
  fold_left (λ acc x, acc ++ g x) xs acc = acc ++ mjoin (g <$> xs).
Proof.
  revert acc. induction xs as [|x xs IH]; intros acc; cbn [fold_left].
  - by rewrite app_nil_r.
  - rewrite IH, <- app_assoc. reflexivity.
Qed.

Lemma without_delete items i : without items i = delete i items.
Proof. unfold without. by rewrite delete_take_drop. Qed.

Lemma get_permutations_short items :
  length items ≤ 1 → get_permutations items = [items].
Proof.
  intros Hlen. simp get_permutations.
  destruct (le_lt_dec (length items) 1); [done|lia].
Qed.

(** The blocks of the enumeration: for each index [i] with element [x],
    [x] put before each permutation of the other items. *)
Lemma get_permutations_long items :
  1 < length items →
  get_permutations items =
  mjoin (imap (λ i x, (x ::.) <$> get_permutations (without items i)) items).
Proof.
  intros Hlen. simp get_permutations.
  destruct (le_lt_dec (length items) 1); [lia|]. simpl.
  rewrite (for_each_in_fold _ _
    (λ i perms, perms ++
       match items !! i with
       | Some x => (x ::.) <$> get_permutations (without items i)
       | None => []
       end)).
  - rewrite fold_left_append_blocks. cbn [app]. f_equal.
    unfold range. rewrite Nat.sub_0_r, <- imap_seq_0.
    apply imap_ext. intros i x Hx. by rewrite Hx.
  - intros i Hi perms. rewrite fold_left_append_map.
    by rewrite (getitem_lookup items i (range_lt _ _ Hi)).
Qed.
Lemma without_Permutation items i x :
  items !! i = Some x → items ≡ₚ x :: without items i.
Proof. rewrite without_delete. apply delete_Permutation. Qed.

Lemma length_without_lookup items i x :
  items !! i = Some x → length (without items i) = length items - 1.
Proof. intros Hx. rewrite without_delete. apply length_delete. by eexists. Qed.

(** Membership in a block of the enumeration. *)
Lemma elem_of_blocks items p :
  p ∈ mjoin (imap (λ i x, (x ::.) <$> get_permutations (without items i)) items) ↔
  ∃ i x q, items !! i = Some x ∧ p = x :: q ∧
           q ∈ get_permutations (without items i).
Proof.
  rewrite list_elem_of_join. split.
  - intros (blk & Hp & (i & x & -> & Hx)%elem_of_lookup_imap).
    apply list_elem_of_fmap in Hp as (q & -> & Hq). by exists i, x, q.
  - intros (i & x & q & Hx & -> & Hq).
    exists ((x ::.) <$> get_permutations (without items i)). split.
    + apply list_elem_of_fmap. by exists q.
    + by apply (elem_of_lookup_imap_2
        (λ i x, (x ::.) <$> get_permutations (without items i))).
Qed.

(** Every entry of the result is a rearrangement of the input. *)
Lemma get_permutations_sound items p :
  p ∈ get_permutations items → p ≡ₚ items.
Proof.
  remember (length items) as n eqn:Hn. revert items Hn p.
  induction n as [n IH] using lt_wf_ind. intros items -> p.
  destruct (le_lt_dec (length items) 1) as [Hle|Hlt].
  - rewrite get_permutations_short by done.
    by intros ->%list_elem_of_singleton.
  - rewrite get_permutations_long by done.
    intros (i & x & q & Hx & -> & Hq)%elem_of_blocks.
    rewrite (without_Permutation items i x Hx). f_equiv.
    eapply IH; [|reflexivity|done].
    apply length_without. by eapply lookup_lt_Some.
Qed.

(** Every rearrangement of the input is an entry of the result. *)
Lemma get_permutations_complete items p :
  p ≡ₚ items → p ∈ get_permutations items.
Proof.
  remember (length items) as n eqn:Hn. revert items Hn p.
  induction n as [n IH] using lt_wf_ind. intros items -> p Hp.
  destruct (le_lt_dec (length items) 1) as [Hle|Hlt].
  - rewrite get_permutations_short by done. apply list_elem_of_singleton.
    destruct items as [|x [|y items]]; simpl in Hle; [| |lia].
    + by apply Permutation_nil_r.
    + by apply Permutation_singleton_r.
  - rewrite get_permutations_long by done. apply elem_of_blocks.
    destruct p as [|x q].
    { apply Permutation_length in Hp. simpl in Hp. lia. }
    assert (x ∈ items) as [i Hx]%list_elem_of_lookup.
    { rewrite <- Hp. apply list_elem_of_here. }
    exists i, x, q. split_and!; [done..|].
    eapply IH; [|reflexivity|].
    + apply length_without. by eapply lookup_lt_Some.
    + apply (Permutation_cons_inv (a:=x)).
      by rewrite <- (without_Permutation items i x Hx).
Qed.

Lemma length_join_uniform {B} (ls : list (list B)) c :
  Forall (λ l, length l = c) ls → length (mjoin ls) = length ls * c.
Proof.
  induction 1 as [|l ls Hl _ IH]; [done|].
  change (mjoin (l :: ls)) with (l ++ mjoin ls).
  rewrite length_app, IH, Hl. cbn [length]. lia.
Qed.

(** The result has [N!] entries for an input of length [N]. *)
Lemma length_get_permutations items :
  length (get_permutations items) = fact (length items).
Proof.
  remember (length items) as n eqn:Hn. revert items Hn.
  induction n as [n IH] using lt_wf_ind. intros items ->.
  destruct (le_lt_dec (length items) 1) as [Hle|Hlt].
  - rewrite get_permutations_short by done.
    by destruct items as [|x [|y items]]; simpl in *; [| |lia].
  - rewrite get_permutations_long by done.
    rewrite (length_join_uniform _ (fact (length items - 1))).
    + rewrite length_imap. destruct (length items) as [|m]; [lia|].
      cbn [fact]. replace (S m - 1) with m by lia. lia.
    + apply Forall_forall. intros blk (i & x & -> & Hx)%elem_of_lookup_imap.
      rewrite length_fmap, <- (length_without_lookup items i x Hx).
      eapply IH; [|reflexivity].
      apply length_without. by eapply lookup_lt_Some.
Qed.

(** Two blocks of a concatenation that share an entry make a repeat. *)
Lemma join_clash {B} (ls : list (list B)) i j l1 l2 y :
  i < j → ls !! i = Some l1 → ls !! j = Some l2 → y ∈ l1 → y ∈ l2 →
  ¬ NoDup (mjoin ls).
Proof.
  intros Hij Hi Hj Hy1 Hy2 Hnd.
  rewrite <- (take_drop_middle ls i l1 Hi) in Hnd.
  rewrite join_app in Hnd.
  change (mjoin (l1 :: drop (S i) ls)) with (l1 ++ mjoin (drop (S i) ls)) in Hnd.
  apply NoDup_app in Hnd as (_ & _ & Hnd).
  apply NoDup_app in Hnd as (_ & Hdisj & _).
  apply (Hdisj y Hy1). apply list_elem_of_join. exists l2. split; [done|].
  apply list_elem_of_lookup. exists (j - S i).
  rewrite lookup_drop. by replace (S i + (j - S i)) with j by lia.
Qed.

(** An element at two positions of the input makes two blocks with a
    common entry. *)
Lemma get_permutations_clash items i j x :
  i < j → items !! i = Some x → items !! j = Some x →
  ¬ NoDup (get_permutations items).
Proof.
  intros Hij Hi Hj.
  assert (1 < length items) as Hlen.
  { apply lookup_lt_Some in Hj. lia. }
  rewrite get_permutations_long by done.
  apply (join_clash _ i j
           ((x ::.) <$> get_permutations (without items i))
           ((x ::.) <$> get_permutations (without items j))
           (x :: without items i)); [done|..].
  - by rewrite list_lookup_imap, Hi.
  - by rewrite list_lookup_imap, Hj.
  - apply list_elem_of_fmap. eexists. split; [done|].
    by apply get_permutations_complete.
  - apply list_elem_of_fmap. eexists. split; [done|].
    apply get_permutations_complete.
    apply (Permutation_cons_inv (a:=x)).
    by rewrite <- (without_Permutation items i x Hi),
               <- (without_Permutation items j x Hj).
Qed.

Lemma get_permutations_NoDup_inv items :
  NoDup (get_permutations items) → NoDup items.
Proof.
  intros Hnd. apply NoDup_alt. intros i j x Hi Hj.
  destruct (Nat.lt_trichotomy i j) as [Hlt|[Heq|Hgt]]; [|done|].
  - by destruct (get_permutations_clash items i j x).
  - by destruct (get_permutations_clash items j i x).
Qed.
Lemma NoDup_join {B} (ls : list (list B)) :
  (∀ i l, ls !! i = Some l → NoDup l) →
  (∀ i j l1 l2 y, i < j → ls !! i = Some l1 → ls !! j = Some l2 →
                  y ∈ l1 → y ∉ l2) →
  NoDup (mjoin ls).
Proof.
  induction ls as [|l ls IH]; intros Heach Hcross; [constructor|].
  change (mjoin (l :: ls)) with (l ++ mjoin ls). apply NoDup_app. split_and!.
  - by apply (Heach 0).
  - intros y Hy (l2 & Hy2 & [j Hj]%list_elem_of_lookup)%list_elem_of_join.
    by apply (Hcross 0 (S j) l l2 y); [lia|..].
  - apply IH.
    + intros i l' Hl'. by apply (Heach (S i)).
    + intros i j l1 l2 y Hij Hi Hj. by apply (Hcross (S i) (S j)); [lia|..].
Qed.

(** Without repeated elements in the input no ordering is listed twice. *)
Lemma get_permutations_NoDup items :
  NoDup items → NoDup (get_permutations items).
Proof.
  remember (length items) as n eqn:Hn. revert items Hn.
  induction n as [n IH] using lt_wf_ind. intros items -> Hnd.
  destruct (le_lt_dec (length items) 1) as [Hle|Hlt].
  - rewrite get_permutations_short by done. apply NoDup_singleton.
  - rewrite get_permutations_long by done. apply NoDup_join.
    + intros i blk Hblk. rewrite list_lookup_imap in Hblk.
      destruct (items !! i) as [x|] eqn:Hx; [|done].
      injection Hblk as <-. apply (NoDup_fmap_2 _).
      eapply IH; [|reflexivity|].
      * apply length_without. by eapply lookup_lt_Some.
      * rewrite without_delete. eapply sublist_NoDup; [done|apply sublist_delete].
    + intros i j blk1 blk2 y Hij Hi Hj Hy1 Hy2.
      rewrite list_lookup_imap in Hi, Hj.
      destruct (items !! i) as [x1|] eqn:Hx1; [|done].
      destruct (items !! j) as [x2|] eqn:Hx2; [|done].
      injection Hi as <-. injection Hj as <-.
      apply list_elem_of_fmap in Hy1 as (q1 & -> & _).
      apply list_elem_of_fmap in Hy2 as (q2 & [= -> _] & _).
      pose proof (NoDup_lookup _ _ _ _ Hnd Hx1 Hx2). lia.
Qed.

Lemma get_permutations_NoDup_iff items :
  NoDup (get_permutations items) ↔ NoDup items.
Proof.
  split; [apply get_permutations_NoDup_inv|apply get_permutations_NoDup].
Qed.
End Permutations.

Lemma without_fmap {A B} (f : A → B) (items : list A) i :
  without (f <$> items) i = f <$> without items i.
Proof. unfold without. by rewrite fmap_app, fmap_take, fmap_drop. Qed.

Lemma fmap_join {B C} (g : B → C) (ls : list (list B)) :
  g <$> mjoin ls = mjoin (fmap g <$> ls).
Proof.
  induction ls as [|l ls IH]; [done|].
  change (mjoin (l :: ls)) with (l ++ mjoin ls).
  rewrite fmap_app, IH. done.
Qed.

(** The code never looks at the elements: the result for relabelled items
    is the result for the items, relabelled. *)
Lemma get_permutations_relabel {A B : Type} (f : A → B) (items : list A) :
  get_permutations (f <$> items) =
  (fmap f : list A → list B) <$> get_permutations items.
Proof.
  remember (length items) as n eqn:Hn. revert items Hn.
  induction n as [n IH] using lt_wf_ind. intros items ->.
  destruct (le_lt_dec (length items) 1) as [Hle|Hlt].
  - by rewrite !get_permutations_short by by rewrite ?length_fmap.
  - rewrite !get_permutations_long by by rewrite ?length_fmap.
    rewrite fmap_join, fmap_imap, imap_fmap. f_equal.
    apply imap_ext. intros i x Hx. cbn [compose].
    rewrite without_fmap, (IH (length (without items i))); [|..|done].
    + by rewrite <- !list_fmap_compose.
    + apply length_without. by eapply lookup_lt_Some.
Qed.

(** The items with their positions: no two of them are equal, and the items
    are what is left when the positions are dropped. *)
Lemma positions_NoDup {A} (items : list A) : NoDup (imap pair items).
Proof.
  apply (NoDup_fmap_1 fst). rewrite fmap_imap.
  rewrite (imap_ext _ (λ i _, i)) by done.
  rewrite imap_seq_0, list_fmap_id. apply NoDup_seq.
Qed.

Lemma positions_dropped {A} (items : list A) : snd <$> imap pair items = items.
Proof.
  rewrite fmap_imap. rewrite (imap_ext _ (λ _ x, x)) by done.
  induction items as [|x items IH]; [done|].
  rewrite imap_cons. f_equal. exact IH.
Qed.

(** C2: on an input of length at most 1 [get_permutations] returns the
    one-element list holding the input; on a longer input it returns, for
    each index [i] in input order, the block made of [items[i]] put before
    each entry of [get_permutations] of the other items (input order, index
    [i] removed), the blocks one after the other.  For [['A', 'B', 'C']] the
    result has length 6, holds each of the 6 orderings exactly once, and
    begins with [['A', 'B', 'C']]. *)
Theorem get_permutations_enumeration :
  (∀ (A : Type) (items : list A),
     (length items ≤ 1 → get_permutations items = [items]) ∧
     (1 < length items →
      get_permutations items =
      mjoin (imap (λ i x, (x ::.) <$> get_permutations (without items i)) items))) ∧
  get_permutations ["A"; "B"; "C"] =
    [["A"; "B"; "C"]; ["A"; "C"; "B"]; ["B"; "A"; "C"];
     ["B"; "C"; "A"]; ["C"; "A"; "B"]; ["C"; "B"; "A"]] ∧
  length (get_permutations ["A"; "B"; "C"]) = 6 ∧
  NoDup (get_permutations ["A"; "B"; "C"]) ∧
  (∀ p, p ≡ₚ ["A"; "B"; "C"] ↔ p ∈ get_permutations ["A"; "B"; "C"]) ∧
  head (get_permutations ["A"; "B"; "C"]) = Some ["A"; "B"; "C"].
Proof.
  split_and!.
  - intros A items. split.
    + apply get_permutations_short.
    + apply get_permutations_long.
  - by vm_compute.
  - by vm_compute.
  - apply (bool_decide_unpack _). by vm_compute.
  - intros p. split.
    + apply get_permutations_complete.
    + apply get_permutations_sound.
  - by vm_compute.
Qed.

Lemma get_permutations_enumeration_witness :
  get_permutations [7] = [[7]] ∧
  get_permutations [1; 2] =
    mjoin (imap (λ i x, (x ::.) <$> get_permutations (without [1; 2] i)) [1; 2]).
Proof.
  split.
  - apply (proj1 (proj1 get_permutations_enumeration nat [7])). simpl. lia.
  - apply (proj2 (proj1 get_permutations_enumeration nat [1; 2])). simpl. lia.
Defined.

(** C10: for an input of length [N], with or without repeated elements,
    [get_permutations] returns exactly [N!] entries; each is a rearrangement
    of the input and every rearrangement of the input is among them.  The
    entries are the orderings of the [N] positions of the input, each
    position ordering listed once, with the elements read off: so when the
    input has a repeated element the result has repeated entries (it is not
    reduced to the distinct orderings). *)
Theorem get_permutations_factorial :
  ∀ (A : Type) (items : list A),
    length (get_permutations items) = fact (length items) ∧
    Forall (λ p, p ≡ₚ items) (get_permutations items) ∧
    (∀ p, p ≡ₚ items → p ∈ get_permutations items) ∧
    (get_permutations items =
       (fmap snd : list (nat * A) → list A) <$>
         get_permutations (imap pair items) ∧
     NoDup (get_permutations (imap pair items))) ∧
    (¬ NoDup items → ¬ NoDup (get_permutations items)).
Proof.
  intros A items. split_and!.
  - apply length_get_permutations.
  - apply Forall_forall. intros p. apply get_permutations_sound.
  - intros p. apply get_permutations_complete.
  - by rewrite <- get_permutations_relabel, positions_dropped.
  - apply get_permutations_NoDup, positions_NoDup.
  - intros Hdup Hnd. by apply Hdup, get_permutations_NoDup_inv.
Qed.

Lemma get_permutations_factorial_witness :
  [2; 1; 1] ∈ get_permutations [1; 1; 2] ∧
  ¬ NoDup [1; 1; 2] ∧ ¬ NoDup (get_permutations [1; 1; 2]).
Proof.
  assert (¬ NoDup [1; 1; 2]) as Hdup.
  { intros [Hin _]%NoDup_cons. apply Hin. apply list_elem_of_here. }
  destruct (get_permutations_factorial nat [1; 1; 2])
    as (_ & _ & Hcomplete & _ & Hrepeats).
  split_and!; [|exact Hdup|exact (Hrepeats Hdup)].
  apply Hcomplete.
  change [2; 1; 1] with ([2] ++ [1; 1]). change [1; 1; 2] with ([1; 1] ++ [2]).
  apply Permutation_app_comm.
Defined.

(** With a repeated element the same ordering is listed more than once. *)
Example get_permutations_repeated :
  get_permutations [1; 1; 2] =
    [[1; 1; 2]; [1; 2; 1]; [1; 1; 2]; [1; 2; 1]; [2; 1; 1]; [2; 1; 1]].
Proof. by vm_compute. Qed.

(** ** Further properties of the text functions *)

Section TextMore.
Context {char : Type} `{Countable char}.
Variable isalnum : char → bool.
Variable lower : char → list char.
Implicit Types (text s : list char) (c : char).

Lemma normalize_app text1 text2 :
  normalize isalnum lower (text1 ++ text2) =
  normalize isalnum lower text1 ++ normalize isalnum lower text2.
Proof.
  induction text1 as [|c text1 IH]; [done|]. cbn [app normalize].
  destruct (isalnum c); [|done]. by rewrite IH, app_assoc.
Qed.

Lemma normalize_skip text1 c text2 :
  isalnum c = false →
  normalize isalnum lower (text1 ++ c :: text2) =
  normalize isalnum lower (text1 ++ text2).
Proof.
  intros Hc. rewrite !normalize_app. cbn [normalize]. by rewrite Hc.
Qed.

(** The two functions look at the normalized strings only. *)
Lemma is_palindrome_normalize text text' :
  normalize isalnum lower text = normalize isalnum lower text' →
  is_palindrome isalnum lower text = is_palindrome isalnum lower text'.
Proof.
  intros Heq. unfold is_palindrome. by rewrite !cleaned_normalize, Heq.
Qed.

Lemma are_anagrams_normalize a a' b b' :
  normalize isalnum lower a = normalize isalnum lower a' →
  normalize isalnum lower b = normalize isalnum lower b' →
  are_anagrams isalnum lower a b = are_anagrams isalnum lower a' b'.
Proof.
  intros Ha Hb. unfold are_anagrams. by rewrite !cleaned_normalize, Ha, Hb.
Qed.

(** X7: a character that is not alphanumeric (a space, punctuation) does
    not matter, wherever it stands: [is_palindrome] and [are_anagrams] give
    the same answer with it and without it. *)
Theorem non_alphanumeric_ignored text1 c text2 other :
  isalnum c = false →
  is_palindrome isalnum lower (text1 ++ c :: text2) =
    is_palindrome isalnum lower (text1 ++ text2) ∧
  are_anagrams isalnum lower (text1 ++ c :: text2) other =
    are_anagrams isalnum lower (text1 ++ text2) other ∧
  are_anagrams isalnum lower other (text1 ++ c :: text2) =
    are_anagrams isalnum lower other (text1 ++ text2).
Proof.
  intros Hc. pose proof (normalize_skip text1 c text2 Hc) as Heq.
  split_and!.
  - by apply is_palindrome_normalize.
  - by apply are_anagrams_normalize.
  - by apply are_anagrams_normalize.
Qed.

Lemma normalize_same_case text text' :
  Forall2 (λ c c', isalnum c = isalnum c' ∧ lower c = lower c') text text' →
  normalize isalnum lower text = normalize isalnum lower text'.
Proof.
  induction 1 as [|c c' text text' [Halnum Hlower] _ IH]; [done|].
  cbn [normalize]. by rewrite Halnum, Hlower, IH.
Qed.

(** X8: case does not matter: two texts that agree, position by position,
    up to characters with the same lower case (and the same [isalnum]) get
    the same answer from [is_palindrome], and are interchangeable as
    arguments of [are_anagrams]. *)
Theorem case_ignored text text' other :
  Forall2 (λ c c', isalnum c = isalnum c' ∧ lower c = lower c') text text' →
  is_palindrome isalnum lower text = is_palindrome isalnum lower text' ∧
  are_anagrams isalnum lower text other = are_anagrams isalnum lower text' other ∧
  are_anagrams isalnum lower other text = are_anagrams isalnum lower other text'.
Proof.
  intros Heq%normalize_same_case. split_and!.
  - by apply is_palindrome_normalize.
  - by apply are_anagrams_normalize.
  - by apply are_anagrams_normalize.
Qed.

Lemma normalize_reverse text :
  (∀ c, length (lower c) ≤ 1) →
  normalize isalnum lower (reverse text) = reverse (normalize isalnum lower text).
Proof.
  intros Hlower. induction text as [|c text IH]; [done|].
  rewrite reverse_cons, normalize_app, IH. cbn [normalize].
  destruct (isalnum c); [|by rewrite app_nil_r].
  by rewrite app_nil_r, reverse_app, <- (short_reverse (lower c)).
Qed.

(** X9: when the lower case of every character is at most one character,
    a text and its reverse get the same answer from [is_palindrome], and a
    text followed by its reverse is a palindrome. *)
Theorem is_palindrome_reverse text :
  (∀ c, length (lower c) ≤ 1) →
  is_palindrome isalnum lower (reverse text) = is_palindrome isalnum lower text ∧
  is_palindrome isalnum lower (text ++ reverse text) = true.
Proof.
  intros Hlower. split.
  - unfold is_palindrome.
    rewrite !cleaned_normalize, normalize_reverse, reverse_involutive by done.
    apply bool_decide_ext. split; intros Heq; by rewrite <- Heq at 1.
  - apply is_palindrome_iff.
    rewrite normalize_app, normalize_reverse, reverse_app by done.
    by rewrite reverse_involutive.
Qed.

(** X10: [are_anagrams] returns [True] exactly when the normalized first
    string is not empty and the two normalized strings are rearrangements of
    each other (the same characters, each as many times). *)
Theorem are_anagrams_rearrangement a b :
  are_anagrams isalnum lower a b = true ↔
  normalize isalnum lower a ≠ [] ∧
  normalize isalnum lower a ≡ₚ normalize isalnum lower b.
Proof. apply are_anagrams_Permutation. Qed.

(** X11: [are_anagrams] does not depend on the order of its arguments, it
    is transitive, and a text is an anagram of itself exactly when it has an
    alphanumeric character left after normalization. *)
Theorem are_anagrams_relation (a b t : list char) :
  are_anagrams isalnum lower a b = are_anagrams isalnum lower b a ∧
  (are_anagrams isalnum lower a b = true →
   are_anagrams isalnum lower b t = true →
   are_anagrams isalnum lower a t = true) ∧
  (are_anagrams isalnum lower a a = true ↔ normalize isalnum lower a ≠ []).
Proof.
  split_and!.
  - apply eq_true_iff_eq. rewrite !are_anagrams_Permutation. split.
    + intros [Ha Hp]. split; [|done]. intros Hb. rewrite Hb in Hp.
      by apply Permutation_nil_r in Hp.
    + intros [Hb Hp]. split; [|done]. intros Ha. rewrite Ha in Hp.
      by apply Permutation_nil_r in Hp.
  - rewrite !are_anagrams_Permutation. intros [Ha Hab] [_ Hbc].
    split; [done|]. by rewrite Hab.
  - rewrite are_anagrams_Permutation. split; [by intros [? _]|done].
Qed.

End TextMore.

Lemma ascii_lower_single (c : ascii) : length (ascii_lower c) ≤ 1.
Proof. unfold ascii_lower. by case_match. Qed.

Lemma non_alphanumeric_ignored_witness :
  is_palindrome ascii_isalnum ascii_lower (str "race" ++ " "%char :: str "car") =
    is_palindrome ascii_isalnum ascii_lower (str "race" ++ str "car") ∧
  are_anagrams ascii_isalnum ascii_lower (str "race" ++ " "%char :: str "car") (str "carrace") =
    are_anagrams ascii_isalnum ascii_lower (str "race" ++ str "car") (str "carrace") ∧
  are_anagrams ascii_isalnum ascii_lower (str "carrace") (str "race" ++ " "%char :: str "car") =
    are_anagrams ascii_isalnum ascii_lower (str "carrace") (str "race" ++ str "car").
Proof.
  apply (non_alphanumeric_ignored ascii_isalnum ascii_lower
           (str "race") " "%char (str "car") (str "carrace")).
  reflexivity.
Defined.

Lemma case_ignored_witness :
  is_palindrome ascii_isalnum ascii_lower (str "Ab") =
    is_palindrome ascii_isalnum ascii_lower (str "aB") ∧
  are_anagrams ascii_isalnum ascii_lower (str "Ab") (str "ba") =
    are_anagrams ascii_isalnum ascii_lower (str "aB") (str "ba") ∧
  are_anagrams ascii_isalnum ascii_lower (str "ba") (str "Ab") =
    are_anagrams ascii_isalnum ascii_lower (str "ba") (str "aB").
Proof.
  apply (case_ignored ascii_isalnum ascii_lower (str "Ab") (str "aB") (str "ba")).
  repeat constructor.
Defined.

Lemma is_palindrome_reverse_witness :
  is_palindrome ascii_isalnum ascii_lower (reverse (str "Was it a car")) =
    is_palindrome ascii_isalnum ascii_lower (str "Was it a car") ∧
  is_palindrome ascii_isalnum ascii_lower
    (str "Was it a car" ++ reverse (str "Was it a car")) = true.
Proof.
  apply (is_palindrome_reverse ascii_isalnum ascii_lower (str "Was it a car")).
  exact ascii_lower_single.
Defined.

Lemma are_anagrams_relation_witness :
  are_anagrams ascii_isalnum ascii_lower (str "listen") (str "enlist") = true.
Proof.
  apply (proj1 (proj2 (are_anagrams_relation ascii_isalnum ascii_lower
                         (str "listen") (str "silent") (str "enlist"))));
    by vm_compute.
Defined.

(** ** Further properties of find_factors *)

Section FactorsMore.
Local Open Scope Z_scope.

Lemma factors_head z :
  0 < z →
  head (filter (λ i, (z `mod` i =? 0) = true) (rangeZ 1 (z + 1))) = Some 1.
Proof.
  intros Hz. unfold rangeZ. rewrite seqZ_cons by lia.
  rewrite filter_cons_True; [done|]. by rewrite Zmod_1_r.
Qed.

Lemma factors_last z :
  0 < z →
  last (filter (λ i, (z `mod` i =? 0) = true) (rangeZ 1 (z + 1))) = Some z.
Proof.
  intros Hz. unfold rangeZ.
  replace (z + 1 - 1) with (Z.of_nat (S (Z.to_nat (z - 1)))) by lia.
  rewrite seqZ_S, filter_app.
  replace (1 + Z.of_nat (Z.to_nat (z - 1))) with z by lia.
  rewrite filter_cons_True by by rewrite Z_mod_same_full.
  rewrite filter_nil. apply last_snoc.
Qed.

(** X12: for a positive [int] the result of [find_factors] begins with 1
    and ends with [n], and the factors come in pairs: with [i] the result
    holds [n // i], and [i * (n // i) == n]. *)
Theorem find_factors_pairs n z :
  as_int n = Some z → 0 < z →
  ∃ factors,
    find_factors n = Return factors ∧
    head factors = Some 1 ∧ last factors = Some z ∧
    ∀ i, i ∈ factors → z `div` i ∈ factors ∧ i * (z `div` i) = z.
Proof.
  intros Hn Hz. eexists. split_and!.
  - by apply find_factors_positive.
  - by apply factors_head.
  - by apply factors_last.
  - intros i [Hi Hdiv]%elem_of_factors; [|done].
    assert (z = i * (z `div` i)) as Hexact.
    { apply Z_div_exact_full_2; [lia|]. apply Z.mod_divide; [lia|done]. }
    split; [|lia]. apply elem_of_factors; [done|]. split; [nia|].
    exists i. lia.
Qed.

(** X13: for an [int] [n > 1], [find_factors(n)] is [[1, n]] exactly when
    [n] is a prime number. *)
Theorem find_factors_prime n z :
  as_int n = Some z → 1 < z →
  find_factors n = Return [1; z] ↔ Z.prime z.
Proof.
  intros Hn Hz. rewrite (find_factors_positive n z Hn) by lia. split.
  - intros [= Hfs]. split; [done|]. intros i Hi Hdiv.
    assert (i ∈ [1; z]) as Hin.
    { rewrite <- Hfs. apply elem_of_factors; [lia|]. split; [lia|done]. }
    apply elem_of_cons in Hin as [->|Hin]; [lia|].
    apply list_elem_of_singleton in Hin. lia.
  - intros [_ Hprime]. f_equal.
    apply (StronglySorted_unique_strong Z.lt); [intros; lia|..].
    + eapply sorted_sublist; [apply sublist_filter|apply rangeZ_sorted].
    + repeat constructor. done.
    + apply NoDup_Permutation.
      * apply NoDup_filter, NoDup_seqZ.
      * apply NoDup_cons. split; [|apply NoDup_singleton].
        intros ?%list_elem_of_singleton. lia.
      * intros i. rewrite elem_of_factors by lia.
        rewrite elem_of_cons, list_elem_of_singleton. split.
        -- intros [Hi Hdiv].
           destruct (decide (i = 1)) as [|Hne1]; [by left|].
           destruct (decide (i = z)) as [|Hnez]; [by right|].
           destruct (Hprime i); [lia|done].
        -- intros [->| ->]; (split; [lia|]).
           ++ apply Z.divide_1_l.
           ++ apply Z.divide_refl.
Qed.

End FactorsMore.

Lemma find_factors_pairs_witness :
  ∃ factors,
    find_factors (PyInt 28) = Return factors ∧
    head factors = Some 1%Z ∧ last factors = Some 28%Z ∧
    ∀ i, i ∈ factors → (28 `div` i)%Z ∈ factors ∧ (i * (28 `div` i))%Z = 28%Z.
Proof.
  apply (find_factors_pairs (PyInt 28) 28); [reflexivity|lia].
Defined.

Lemma find_factors_prime_witness :
  find_factors (PyInt 7) = Return [1; 7]%Z ↔ Z.prime 7.
Proof.
  apply (find_factors_prime (PyInt 7) 7); [reflexivity|lia].
Defined.

(** ** Further properties of get_permutations *)

Section PermutationsMore.
Context {A : Type}.
Implicit Types (items p q : list A).

(** X14: the result of [get_permutations] holds exactly the rearrangements
    of the input: a list is an entry of it if and only if it is a
    permutation of [items]. *)
Theorem get_permutations_exactly items p :
  p ∈ get_permutations items ↔ p ≡ₚ items.
Proof.
  split; [apply get_permutations_sound|apply get_permutations_complete].
Qed.

(** X15: no ordering is listed twice exactly when no element occurs twice
    in the input. *)
Theorem get_permutations_distinct items :
  NoDup (get_permutations items) ↔ NoDup items.
Proof. apply get_permutations_NoDup_iff. Qed.

Lemma get_permutations_nonempty items : get_permutations items ≠ [].
Proof.
  intros Hnil. pose proof (length_get_permutations items) as Hlen.
  rewrite Hnil in Hlen. pose proof (fact_neq_0 (length items)).
  simpl in Hlen. lia.
Qed.

Lemma get_permutations_head items :
  head (get_permutations items) = Some items.
Proof.
  remember (length items) as n eqn:Hn. revert items Hn.
  induction n as [n IH] using lt_wf_ind. intros items ->.
  destruct (le_lt_dec (length items) 1) as [Hle|Hlt].
  - by rewrite get_permutations_short.
  - rewrite get_permutations_long by done.
    destruct items as [|x rest]; [simpl in Hlt; lia|].
    rewrite imap_cons.
    change (mjoin (?l :: ?ls)) with (l ++ mjoin ls).
    assert (without (x :: rest) 0 = rest) as -> by reflexivity.
    pose proof (IH (length rest) ltac:(simpl; lia) rest eq_refl) as Hrest.
    destruct (get_permutations rest) as [|q qs]; [done|].
    by injection Hrest as ->.
Qed.

Lemma get_permutations_last items :
  last (get_permutations items) = Some (reverse items).
Proof.
  remember (length items) as n eqn:Hn. revert items Hn.
  induction n as [n IH] using lt_wf_ind. intros items ->.
  destruct (le_lt_dec (length items) 1) as [Hle|Hlt].
  - rewrite get_permutations_short by done.
    by destruct items as [|x [|y items]]; simpl in *; [| |lia].
  - rewrite get_permutations_long by done.
    destruct items as [|y front _] using rev_ind; [simpl in Hlt; lia|].
    rewrite imap_app, join_app. cbn [imap].
    change (mjoin [?l]) with (l ++ []). rewrite app_nil_r, Nat.add_0_r.
    assert (without (front ++ [y]) (length front) = front) as ->.
    { unfold without. rewrite take_app_length.
      rewrite drop_app_ge by lia.
      replace (S (length front) - length front) with 1%nat by lia.
      cbn [drop]. by rewrite app_nil_r. }
    rewrite last_app, fmap_last.
    rewrite (IH (length front)); [|rewrite length_app; simpl; lia|done].
    cbn [fmap option_fmap option_map]. by rewrite reverse_snoc.
Qed.

(** X16: the first entry of the result is the input as given, and the
    last entry is the input reversed. *)
Theorem get_permutations_first_last items :
  head (get_permutations items) = Some items ∧
  last (get_permutations items) = Some (reverse items).
Proof. split; [apply get_permutations_head|apply get_permutations_last]. Qed.

End PermutationsMore.

(** X17: the enumeration goes by position, not by value: the result for
    the list of the [f(x)] is the result for the list of the [x] with [f]
    applied to every element of every entry, in the same order. *)
Theorem get_permutations_fmap {A B : Type} (f : A → B) (items : list A) :
  get_permutations (f <$> items) =
  (fmap f : list A → list B) <$> get_permutations items.
Proof. apply get_permutations_relabel. Qed.

End SolverProofs.

(** * Properties of conv.py *)

Module ConversionsProofs.
Import DataProcessor Conversions.

Section Conversions.
Context {num : Type} `{!Numeric num, !Arithmetic num}.
Implicit Types (self : conversions) (value : pyval (num:=num)).

Lemma run_seq {A B} (m : method A) (k : A → method B) self :
  (m ≫= k) self =
  match m self with
  | (self', Return a) => k a self'
  | (self', Raise e) => (self', Raise e)
  end.
Proof. reflexivity. Qed.

Lemma run_arith_seq {A B} (result : outcome arithmetic_error A)
    (k : A → method B) self :
  (arith result ≫= k) self =
  match result with
  | Return a => k a self
  | Raise e => (self, Raise (ArithmeticError e))
  end.
Proof. by destruct result. Qed.

Local Ltac next_operation :=
  rewrite run_arith_seq;
  match goal with
  | |- context [match ?result with Return _ => _ | Raise _ => _ end] =>
      destruct result; [|left; by eexists]
  end.

(** One call of a method of the class: it raises and records nothing, or it
    returns a number and records one line. *)
Lemma method_call (m : pyval (num:=num) → method num) value self :
  m = celsius_to_fahrenheit ∨ m = fahrenheit_to_celsius ∨ m = kg_to_lb →
  (∃ e, m value self = (self, Raise e)) ∨
  (∃ x line,
     m value self =
       ({| conversion_history := conversion_history self ++ [line] |}, Return x)).
Proof.
  intros [->|[->| ->]]; destruct value as [x| |]; try (left; by eexists).
  - unfold celsius_to_fahrenheit. destruct (lt x _); [left; by eexists|].
    do 3 next_operation. right. by eexists _, _.
  - unfold fahrenheit_to_celsius. destruct (lt x _); [left; by eexists|].
    do 3 next_operation. right. by eexists _, _.
  - unfold kg_to_lb. destruct (lt x _); [left; by eexists|].
    next_operation. right. by eexists _, _.
Qed.

(** The same for the methods used as callables. *)
Lemma converter_call (c : conversion) value self :
  converter c →
  (∃ e, c value self = (self, Raise e)) ∨
  (∃ x line,
     c value self =
       ({| conversion_history := conversion_history self ++ [line] |},
        Return (PNum x))).
Proof.
  intros Hc.
  assert (∃ m, c = bound m ∧
               (m = celsius_to_fahrenheit ∨ m = fahrenheit_to_celsius ∨
                m = kg_to_lb)) as (m & -> & Hm).
  { destruct Hc; eexists; (split; [done|]); tauto. }
  unfold bound. rewrite run_seq.
  destruct (method_call m value self Hm) as [[e ->]|(x & line & ->)].
  - left. by eexists.
  - right. by eexists _, _.
Qed.

(** X18: in a chain of the class's own converting methods every conversion
    that returns adds exactly one line to the history and one that raises
    adds none and ends the chain: afterwards the history is the old one
    followed by as many new lines as there are conversions when the chain
    returned, and by fewer when it raised.  No line is removed. *)
Theorem chain_convert_history value (convs : list conversion) self :
  Forall converter convs →
  ∃ lines,
    conversion_history (chain_convert value convs self).1 =
      conversion_history self ++ lines ∧
    match (chain_convert value convs self).2 with
    | Return _ => length lines = length convs
    | Raise _ => length lines < length convs
    end.
Proof.
  intros Hconvs. revert value self.
  induction Hconvs as [|c convs Hc _ IH]; intros value self.
  - exists []. split; [by rewrite app_nil_r|done].
  - cbn [chain_convert]. rewrite run_seq.
    destruct (converter_call c value self Hc) as [[e ->]|(x & line & ->)].
    + exists []. split; [by rewrite app_nil_r|]. cbn. lia.
    + destruct (IH (PNum x)
                  {| conversion_history := conversion_history self ++ [line] |})
        as (lines & Hhistory & Hlen).
      exists (line :: lines). split.
      * rewrite Hhistory. cbn [conversion_history]. by rewrite <- app_assoc.
      * destruct (chain_convert _ _ _).2; cbn [length]; lia.
Qed.

(** X19: chaining composes: the chain [cs1 + cs2] on [value] is the chain
    [cs1] on [value] followed, if it returned, by the chain [cs2] on its
    result; the empty chain returns [value] itself and touches nothing.
    This holds for any callables. *)
Theorem chain_convert_app value (cs1 cs2 : list conversion) self :
  chain_convert value (cs1 ++ cs2) self =
    (result ← chain_convert value cs1; chain_convert result cs2) self ∧
  chain_convert value [] self = (self, Return value).
Proof.
  split; [|done]. revert value self.
  induction cs1 as [|c cs1 IH]; intros value self; [done|].
  cbn [app chain_convert]. rewrite !run_seq.
  destruct (c value self) as [self' [result|e]]; [|done].
  by rewrite IH, run_seq.
Qed.

End Conversions.

Lemma chain_convert_history_witness :
  ∃ lines,
    conversion_history
      (chain_convert (PNum 100%Q)
         [bound celsius_to_fahrenheit; bound fahrenheit_to_celsius;
          bound kg_to_lb] __init__).1 =
      conversion_history __init__ ++ lines ∧
    match (chain_convert (PNum 100%Q)
             [bound celsius_to_fahrenheit; bound fahrenheit_to_celsius;
              bound kg_to_lb] __init__).2 with
    | Return _ => length lines = 3
    | Raise _ => length lines < 3
    end.
Proof.
  apply (chain_convert_history (PNum 100%Q)
           [bound celsius_to_fahrenheit; bound fahrenheit_to_celsius;
            bound kg_to_lb] __init__).
  repeat constructor.
Defined.

(** A run in exact arithmetic: 100 degrees Celsius, and a weight that is
    rejected after one conversion was recorded. *)
Example conversions_run :
  (celsius_to_fahrenheit (PNum 100%Q) __init__).2 = Return (1060 # 5)%Q ∧
  chain_convert (PNum (-300)%Q) [bound fahrenheit_to_celsius; bound kg_to_lb]
    __init__ =
    ({| conversion_history :=
          ["-300/1°F → -1660/9°C"] |},
     Raise (ValueError "Weight cannot be negative")).
Proof. split; by vm_compute. Qed.

End ConversionsProofs.

(** * Properties of hangman.py *)

Module HangmanProofs.
Import Hangman.

Section Letters.
Context {letter : Type} `{EqDecision letter}.
Variable underscore : letter.
Variable randbelow : nat → nat.
Implicit Types (word temp : list letter) (character : letter).

(** The first loop collects the letters of the word. *)
Lemma elem_of_letters_loop word (letters : list letter) x :
  x ∈ fold_left
        (λ letters char, if decide (char ∈ letters) then letters else letters ++ [char])
        word letters ↔
  x ∈ letters ∨ x ∈ word.
Proof.
  revert letters. induction word as [|c word IH]; intros letters; cbn [fold_left].
  - rewrite elem_of_nil. tauto.
  - rewrite IH, elem_of_cons. case_decide as Hc.
    + split; [tauto|]. intros [?|[->|?]]; tauto.
    + rewrite elem_of_app, list_elem_of_singleton. tauto.
Qed.

Lemma elem_of_distinct_letters word x : x ∈ distinct_letters word ↔ x ∈ word.
Proof.
  unfold distinct_letters. rewrite elem_of_letters_loop, elem_of_nil. tauto.
Qed.

(** The second loop, from position [k] on: it does not raise, and it puts
    [character] at the positions of the word where it stands. *)
Lemma reveal_loop character word k temp :
  k + length word ≤ length temp →
  ∃ temp',
    for_each (enumerate word k) temp
      (λ '(num, char) temp,
         if decide (char = character) then
           let templist := temp in
           setitem templist num char
         else mret temp) = Return temp' ∧
    length temp' = length temp ∧
    ∀ i, temp' !! i =
         match word !! (i - k) with
         | Some c => if decide (k ≤ i ∧ c = character) then Some c else temp !! i
         | None => temp !! i
         end.
Proof.
  revert k temp. induction word as [|c word IH]; intros k temp Hlen.
  - exists temp. split_and!; [done..|]. intros i. by rewrite lookup_nil.
  - cbn [enumerate for_each length] in *.
    set (temp1 := if decide (c = character) then <[k:=c]> temp else temp).
    assert (length temp1 = length temp) as Hlen1.
    { unfold temp1. case_decide; [apply length_insert|done]. }
    destruct (IH (S k) temp1) as (temp' & Hrun & Hlen' & Hlookup); [lia|].
    exists temp'. split_and!.
    + rewrite <- Hrun. unfold temp1, setitem.
      case_decide; [|done]. by rewrite decide_True by lia.
    + lia.
    + intros i. rewrite Hlookup.
      assert (temp1 !! i = if decide (i = k ∧ c = character) then Some c
                           else temp !! i) as Htemp1.
      { unfold temp1. destruct (decide (c = character)) as [Hc|Hc].
        - rewrite list_lookup_insert.
          destruct (decide (k = i ∧ k < length temp)) as [[-> _]|Hn].
          + by rewrite decide_True.
          + rewrite decide_False; [done|]. intros [-> _]. apply Hn. lia.
        - by rewrite decide_False by tauto. }
      destruct (lt_eq_lt_dec i k) as [[Hlt| ->]|Hgt].
      * replace (i - S k) with 0 by lia. replace (i - k) with 0 by lia.
        cbn [lookup list_lookup]. rewrite (decide_False (P := k ≤ i ∧ _)) by lia.
        rewrite Htemp1, (decide_False (P := i = k ∧ _)) by lia.
        destruct (word !! 0); [by rewrite decide_False by lia|done].
      * replace (k - S k) with 0 by lia. replace (k - k) with 0 by lia.
        cbn [lookup list_lookup]. rewrite Htemp1.
        assert (∀ o : option letter,
                  match word !! 0 with
                  | Some c' => if decide (S k ≤ k ∧ c' = character) then Some c' else o
                  | None => o
                  end = o) as ->.
        { intros o. destruct (word !! 0); [by rewrite decide_False by lia|done]. }
        destruct (decide (c = character)).
        -- by rewrite !(decide_True (P := _ ∧ _)) by done.
        -- by rewrite !(decide_False (P := _ ∧ _)) by tauto.
      * replace (i - k) with (S (i - S k)) by lia. cbn [lookup list_lookup].
        rewrite Htemp1, (decide_False (P := i = k ∧ _)) by lia.
        destruct (word !! (i - S k)) as [c'|]; [|done].
        destruct (decide (c' = character)).
        -- by rewrite !(decide_True (P := _ ∧ _)) by (split; [lia|done]).
        -- by rewrite !(decide_False (P := _ ∧ _)) by tauto.
Qed.

(** X20: [get_some_letters] raises [IndexError] on the empty word.  On any
    other word, with a generator that draws below its bound, it picks a
    letter of the word and returns a string as long as the word that shows
    this letter at every position where the word has it and ['_'] at all
    other positions. *)
Theorem get_some_letters_reveals word :
  (∀ n, 0 < n → randbelow n < n) →
  (word = [] → get_some_letters underscore randbelow word = Raise IndexError) ∧
  (word ≠ [] →
   ∃ character temp,
     character ∈ word ∧
     get_some_letters underscore randbelow word = Return temp ∧
     length temp = length word ∧
     ∀ i c, word !! i = Some c →
            temp !! i = Some (if decide (c = character) then c else underscore)).
Proof.
  intros Hrand. split; [by intros ->|]. intros Hword.
  unfold get_some_letters, random_choice.
  destruct (distinct_letters word) as [|l letters] eqn:Hletters.
  { destruct word as [|c word]; [done|].
    assert (c ∈ distinct_letters (c :: word)) as Hc.
    { apply elem_of_distinct_letters, list_elem_of_here. }
    rewrite Hletters in Hc. by apply elem_of_nil in Hc. }
  destruct ((l :: letters) !! randbelow (length (l :: letters)))
    as [character|] eqn:Hpick.
  2:{ apply lookup_ge_None in Hpick.
      pose proof (Hrand (length (l :: letters)) ltac:(simpl; lia)). lia. }
  assert (character ∈ word) as Hin.
  { apply elem_of_distinct_letters. rewrite Hletters.
    by eapply list_elem_of_lookup_2. }
  destruct (reveal_loop character word 0 (replicate (length word) underscore))
    as (temp & Hrun & Hlen & Hlookup).
  { rewrite length_replicate. lia. }
  exists character, temp. split_and!; [done|exact Hrun| |].
  - by rewrite Hlen, length_replicate.
  - intros i c Hc. rewrite Hlookup, Nat.sub_0_r, Hc.
    rewrite lookup_replicate_2 by by eapply lookup_lt_Some.
    destruct (decide (c = character)).
    + by rewrite decide_True by (split; [lia|done]).
    + by rewrite decide_False by tauto.
Qed.

End Letters.

Lemma get_some_letters_reveals_witness :
  get_some_letters "_"%char (λ _, 0) [] = Raise IndexError ∧
  ∃ character temp,
    character ∈ str "hello" ∧
    get_some_letters "_"%char (λ _, 0) (str "hello") = Return temp ∧
    length temp = length (str "hello") ∧
    ∀ i c, str "hello" !! i = Some c →
           temp !! i = Some (if decide (c = character) then c else "_"%char).
Proof.
  assert (∀ n, 0 < n → (λ _ : nat, 0) n < n) as Hrand by (intros n Hn; exact Hn).
  split.
  - by apply (proj1 (get_some_letters_reveals "_"%char (λ _, 0) [] Hrand)).
  - by apply (proj2 (get_some_letters_reveals "_"%char (λ _, 0) (str "hello") Hrand)).
Defined.

(** The letter ['l'] of ["hello"] drawn: both its positions are shown. *)
Example get_some_letters_hello :
  get_some_letters "_"%char (λ _, 2) (str "hello") = Return (str "__ll_").
Proof. by vm_compute. Qed.

End HangmanProofs.

(** * Properties of scissors.py *)

Module ScissorsProofs.
Import Scissors.

Local Open Scope Z_scope.

Local Ltac each_choice H :=
  repeat (apply elem_of_cons in H as [->|H]); [..|by apply elem_of_nil in H].

(** One round, for choices taken from [choices]: the one whose choice beats
    the other's gets a point, and two calls of [random.choice] are made. *)
Lemma play_round_scores (pick : nat → string) (st : state) :
  pick (calls st) ∈ choices → pick (S (calls st)) ∈ choices →
  calls (play_round pick st) = S (S (calls st)) ∧
  computer_1_score (play_round pick st) =
    computer_1_score st +
    (if beats (pick (calls st)) (pick (S (calls st))) then 1 else 0) ∧
  computer_2_score (play_round pick st) =
    computer_2_score st +
    (if beats (pick (S (calls st))) (pick (calls st)) then 1 else 0).
Proof.
  unfold play_round.
  generalize (pick (calls st)) (pick (S (calls st))). intros c1 c2 H1 H2.
  unfold choices in H1, H2.
  each_choice H1; each_choice H2; cbn; split_and!; try done; lia.
Qed.

Lemma beats_decided (c1 c2 : string) :
  c1 ∈ choices → c2 ∈ choices →
  (if beats c1 c2 then 1 else 0) + (if beats c2 c1 then 1 else 0) =
  (if String.eqb c1 c2 then 0 else 1).
Proof.
  intros H1 H2. unfold choices in H1, H2.
  each_choice H1; each_choice H2; done.
Qed.

Lemma decided_rounds_bounds (pick : nat → string) n k :
  0 ≤ decided_rounds pick n k ≤ Z.of_nat n.
Proof.
  revert k. induction n as [|n IH]; intros k; cbn [decided_rounds]; [lia|].
  specialize (IH (S (S k))). destruct (String.eqb _ _); lia.
Qed.

Lemma play_rounds_scores (pick : nat → string) n (st : state) :
  (∀ k, pick k ∈ choices) →
  computer_1_score st ≤ computer_1_score (play_rounds pick n st) ∧
  computer_2_score st ≤ computer_2_score (play_rounds pick n st) ∧
  computer_1_score (play_rounds pick n st) +
  computer_2_score (play_rounds pick n st) =
    computer_1_score st + computer_2_score st +
    decided_rounds pick n (calls st).
Proof.
  intros Hpick. revert st. induction n as [|n IH]; intros st.
  - cbn. lia.
  - cbn [play_rounds decided_rounds].
    destruct (play_round_scores pick st (Hpick _) (Hpick _)) as (Hc & Hs1 & Hs2).
    destruct (IH (play_round pick st)) as (IH1 & IH2 & IH3).
    rewrite IH3, Hc, Hs1, Hs2.
    pose proof (beats_decided _ _ (Hpick (calls st)) (Hpick (S (calls st)))).
    rewrite Hs1 in IH1. rewrite Hs2 in IH2.
    repeat destruct (beats _ _); destruct (String.eqb _ _); lia.
Qed.

Lemma final_results_scores (st : state) :
  computer_1_score (final_results st) = computer_1_score st ∧
  computer_2_score (final_results st) = computer_2_score st.
Proof.
  unfold final_results. cbn [print computer_1_score computer_2_score].
  by repeat case_match.
Qed.

(** X21: with choices taken from [choices], the two final scores are not
    negative and add up to the number of rounds, among the 5 played, in
    which the two computers chose differently; so they add up to at most
    5. *)
Theorem script_scores (pick : nat → string) :
  (∀ k, pick k ∈ choices) →
  0 ≤ computer_1_score (script pick) ∧
  0 ≤ computer_2_score (script pick) ∧
  computer_1_score (script pick) + computer_2_score (script pick) =
    decided_rounds pick 5 0 ∧
  computer_1_score (script pick) + computer_2_score (script pick) ≤ 5.
Proof.
  intros Hpick. unfold script.
  destruct (final_results_scores
              (play_rounds pick 5
                 {| computer_1_score := 0; computer_2_score := 0;
                    printed := []; calls := 0 |})) as [-> ->].
  destruct (play_rounds_scores pick 5
              {| computer_1_score := 0; computer_2_score := 0;
                 printed := []; calls := 0 |} Hpick) as (H1 & H2 & Hsum).
  cbn [computer_1_score computer_2_score calls] in *.
  pose proof (decided_rounds_bounds pick 5 0). lia.
Qed.

Lemma exchanged_even (pick : nat → string) k :
  Nat.even k = true →
  exchanged pick k = pick (S k) ∧ exchanged pick (S k) = pick k.
Proof.
  intros Hk. unfold exchanged. rewrite Hk. split; [done|].
  by rewrite Nat.even_succ, <- Nat.negb_even, Hk.
Qed.

Lemma exchanged_choices (pick : nat → string) :
  (∀ k, pick k ∈ choices) → ∀ k, exchanged pick k ∈ choices.
Proof. intros Hpick k. unfold exchanged. by destruct (Nat.even k). Qed.

Lemma play_rounds_exchanged (pick : nat → string) n (st st' : state) :
  (∀ k, pick k ∈ choices) →
  Nat.even (calls st) = true → calls st' = calls st →
  computer_1_score st' = computer_2_score st →
  computer_2_score st' = computer_1_score st →
  computer_1_score (play_rounds (exchanged pick) n st') =
    computer_2_score (play_rounds pick n st) ∧
  computer_2_score (play_rounds (exchanged pick) n st') =
    computer_1_score (play_rounds pick n st).
Proof.
  intros Hpick. revert st st'.
  induction n as [|n IH]; intros st st' Heven Hcalls Hs1 Hs2; [done|].
  cbn [play_rounds].
  destruct (play_round_scores pick st (Hpick _) (Hpick _)) as (Hc & H1 & H2).
  destruct (play_round_scores (exchanged pick) st'
              (exchanged_choices pick Hpick _) (exchanged_choices pick Hpick _))
    as (Hc' & H1' & H2').
  rewrite Hcalls in Hc', H1', H2'.
  destruct (exchanged_even pick (calls st) Heven) as [Ea Eb].
  rewrite Ea, Eb in H1', H2'.
  apply IH.
  - rewrite Hc. by rewrite !Nat.even_succ_succ.
  - by rewrite Hc, Hc'.
  - by rewrite H1', H2, Hs1.
  - by rewrite H2', H1, Hs2.
Qed.

(** X22: the scoring treats the two computers alike: with their choices
    exchanged in every round, the final scores are exchanged. *)
Theorem script_exchanged (pick : nat → string) :
  (∀ k, pick k ∈ choices) →
  computer_1_score (script (exchanged pick)) = computer_2_score (script pick) ∧
  computer_2_score (script (exchanged pick)) = computer_1_score (script pick).
Proof.
  intros Hpick. unfold script.
  destruct (final_results_scores
              (play_rounds pick 5
                 {| computer_1_score := 0; computer_2_score := 0;
                    printed := []; calls := 0 |})) as [-> ->].
  destruct (final_results_scores
              (play_rounds (exchanged pick) 5
                 {| computer_1_score := 0; computer_2_score := 0;
                    printed := []; calls := 0 |})) as [-> ->].
  by apply play_rounds_exchanged.
Qed.

Lemma in_turn_choices k : in_turn k ∈ choices.
Proof.
  unfold in_turn, choices. destruct (k `mod` 3)%nat as [|[|]].
  - apply list_elem_of_here.
  - apply list_elem_of_further, list_elem_of_here.
  - do 2 apply list_elem_of_further. apply list_elem_of_here.
Qed.

Lemma script_scores_witness :
  0 ≤ computer_1_score (script in_turn) ∧
  0 ≤ computer_2_score (script in_turn) ∧
  computer_1_score (script in_turn) + computer_2_score (script in_turn) =
    decided_rounds in_turn 5 0 ∧
  computer_1_score (script in_turn) + computer_2_score (script in_turn) ≤ 5.
Proof. apply (script_scores in_turn). exact in_turn_choices. Defined.

Lemma script_exchanged_witness :
  computer_1_score (script (exchanged in_turn)) = computer_2_score (script in_turn) ∧
  computer_2_score (script (exchanged in_turn)) = computer_1_score (script in_turn).
Proof. apply (script_exchanged in_turn). exact in_turn_choices. Defined.

End ScissorsProofs.
